(** * Verification of the documentation conversion scripts

    Shallow embedding of [scripts/rename.py] (the protect / rename / restore
    pass) and of the line transformers of [scripts/convert.py] (fence titling,
    callout translation, duplicate-H1 removal).

    Documents are modelled as lists of 8-bit characters; the character
    classes [\w] and [\s] are the ASCII ones.  The regular expressions of the
    source are written in a small abstract syntax and run by a backtracking
    matcher that follows the priorities of Python's [re] module (greedy
    repetition, leftmost match, optional groups tried first). *)

From Stdlib Require Import List Ascii String Bool Arith NArith Lia.
From Stdlib Require Import DecimalN.
Import ListNotations.

Set Implicit Arguments.

(** ** Strings *)

Definition str := list ascii.

(** A Python string literal. *)
Definition lit (s : string) : str := list_ascii_of_string s.

Definition ch (s : string) : ascii :=
  match s with String c _ => c | EmptyString => zero end.

Definition nl : ascii := ascii_of_nat 10.

Definition in_range (lo hi : nat) (c : ascii) : bool :=
  let n := nat_of_ascii c in (lo <=? n) && (n <=? hi).

Definition is_upper (c : ascii) : bool := in_range 65 90 c.
Definition is_lower (c : ascii) : bool := in_range 97 122 c.
Definition is_digit (c : ascii) : bool := in_range 48 57 c.

(** [\w] : letters, digits and the underscore. *)
Definition is_word (c : ascii) : bool :=
  is_upper c || is_lower c || is_digit c || Ascii.eqb c (ch "_").

(** [\s] : what [str.isspace] accepts below 128. *)
Definition is_space (c : ascii) : bool :=
  in_range 9 13 c || in_range 28 32 c.

(** [.] : anything but a newline. *)
Definition not_nl (c : ascii) : bool := negb (Ascii.eqb c nl).

(** [s.startswith(p)], returning what follows the prefix. *)
Fixpoint strip_prefix (p s : str) : option str :=
  match p with
  | [] => Some s
  | a :: p' =>
      match s with
      | [] => None
      | b :: s' => if Ascii.eqb a b then strip_prefix p' s' else None
      end
  end.

Definition starts_with (p s : str) : bool :=
  match strip_prefix p s with Some _ => true | None => false end.

(** [p in s] *)
Fixpoint contains (p s : str) : bool :=
  starts_with p s ||
  match s with
  | [] => false
  | _ :: s' => contains p s'
  end.

Fixpoint str_eqb (a b : str) : bool :=
  match a, b with
  | [], [] => true
  | x :: a', y :: b' => Ascii.eqb x y && str_eqb a' b'
  | _, _ => false
  end.

(** [s.split("\n")] *)
Fixpoint split_lines (s : str) : list str :=
  match s with
  | [] => [[]]
  | c :: s' =>
      if Ascii.eqb c nl then [] :: split_lines s'
      else match split_lines s' with
           | l :: ls => (c :: l) :: ls
           | [] => [[c]]
           end
  end.

(** ["\n".join(lines)] *)
Fixpoint join_lines (ls : list str) : str :=
  match ls with
  | [] => []
  | [l] => l
  | l :: ls' => l ++ nl :: join_lines ls'
  end.

(** ** Regular expressions *)

Inductive regex : Type :=
| Lit (s : str)                 (* a literal string *)
| Cls (p : ascii -> bool)       (* one character of a class *)
| Star (p : ascii -> bool)      (* greedy [c*] over a class *)
| Plus (p : ascii -> bool)      (* greedy [c+] over a class *)
| Opt (r : regex)               (* greedy [r?] *)
| Seq (r1 r2 : regex)
| NotAhead (c : ascii)          (* [(?!c)] *)
| WordB                         (* [\b] *)
| Bos                           (* [^] without MULTILINE *)
| Bol                           (* [^] with MULTILINE *)
| Eos                           (* [$] without MULTILINE *)
| Group (r : regex).            (* a capturing group *)

(** State of a match in progress: the character before the cursor
    ([None] at the start of the string), the number of characters consumed
    since the match started, and the groups captured so far. *)
Record mstate : Type := MState {
  prev : option ascii;
  pos : nat;
  caps : list str
}.

Definition last_char (p : option ascii) (s : str) : option ascii :=
  match s with [] => p | _ => Some (last s zero) end.

Definition opt_word (c : option ascii) : bool :=
  match c with Some c => is_word c | None => false end.

Section Matcher.
Variable A : Type.

Fixpoint star (p : ascii -> bool) (st : mstate) (s : str)
         (k : mstate -> str -> option A) : option A :=
  match s with
  | c :: s' =>
      if p c then
        match star p (MState (Some c) (S (pos st)) (caps st)) s' k with
        | Some x => Some x
        | None => k st s
        end
      else k st s
  | [] => k st s
  end.

Fixpoint rmatch (r : regex) (st : mstate) (s : str)
         (k : mstate -> str -> option A) : option A :=
  match r with
  | Lit l =>
      match strip_prefix l s with
      | Some rest =>
          k (MState (last_char (prev st) l) (pos st + List.length l) (caps st)) rest
      | None => None
      end
  | Cls p =>
      match s with
      | c :: s' =>
          if p c then k (MState (Some c) (S (pos st)) (caps st)) s' else None
      | [] => None
      end
  | Star p => star p st s k
  | Plus p =>
      match s with
      | c :: s' =>
          if p c then star p (MState (Some c) (S (pos st)) (caps st)) s' k
          else None
      | [] => None
      end
  | Opt r' =>
      match rmatch r' st s k with
      | Some x => Some x
      | None => k st s
      end
  | Seq r1 r2 => rmatch r1 st s (fun st' rest => rmatch r2 st' rest k)
  | NotAhead c =>
      match s with
      | c' :: _ => if Ascii.eqb c c' then None else k st s
      | [] => k st s
      end
  | WordB =>
      if xorb (opt_word (prev st)) (opt_word (hd_error s)) then k st s
      else None
  | Bos => match prev st with None => k st s | Some _ => None end
  | Bol =>
      match prev st with
      | None => k st s
      | Some c => if Ascii.eqb c nl then k st s else None
      end
  | Eos =>
      match s with
      | [] => k st s
      | [c] => if Ascii.eqb c nl then k st s else None
      | _ => None
      end
  | Group r' =>
      let start := pos st in
      rmatch r' st s
        (fun st' rest =>
           k (MState (prev st') (pos st')
                     (caps st' ++ [firstn (pos st' - start) s]))
             rest)
  end.
End Matcher.

(** A matcher tells, at a position of the subject (the character before it
    and the text from it on), how many characters the pattern matches there. *)
Definition matcher := option ascii -> str -> option nat.

Definition re_matcher (r : regex) : matcher :=
  fun pv s => rmatch r (MState pv 0 []) s (fun st _ => Some (pos st)).

(** [re.match(r, line)] : the captured groups of a match at the start. *)
Definition re_match (r : regex) (s : str) : option (list str) :=
  rmatch r (MState None 0 []) s (fun st _ => Some (caps st)).

(** The literal pattern of [str.replace]. *)
Definition lit_matcher (old : str) : matcher :=
  fun _ s => if starts_with old s then Some (List.length old) else None.

(** ** Substitution

    [re.sub(pattern, repl, s)] with a callable [repl] that threads a state:
    the subject is scanned from the left, the pattern is tried at each
    position, a match is replaced and the scan resumes after it.  [skip]
    counts the characters of the current match still to be dropped.  No
    pattern of the two scripts matches the empty string, so the scan copies
    the character where a matcher answers [Some 0]. *)
Section Sub.
Variable St : Type.
Variable m : matcher.
Variable repl : St -> str -> St * str.

Fixpoint sub_scan (skip : nat) (pv : option ascii) (s : str) (st : St)
  : str * St :=
  match s with
  | [] => ([], st)
  | c :: s' =>
      match skip with
      | S k => sub_scan k (Some c) s' st
      | O =>
          match m pv s with
          | Some (S len) =>
              let (st1, out) := repl st (firstn (S len) s) in
              let (rest, st2) := sub_scan len (Some c) s' st1 in
              (out ++ rest, st2)
          | _ =>
              let (rest, st2) := sub_scan 0 (Some c) s' st in
              (c :: rest, st2)
          end
      end
  end.
End Sub.

(** [re.sub(pattern, new, s)] and [s.replace(old, new)]. *)
Definition re_sub (m : matcher) (new : str) (s : str) : str :=
  fst (sub_scan m (fun (st : unit) _ => (st, new)) 0 None s tt).

Definition re_sub_re (r : regex) (new : str) (s : str) : str :=
  re_sub (re_matcher r) new s.

Definition replace (old new : str) (s : str) : str :=
  re_sub (lit_matcher old) new s.

(** [re.findall(pattern, s)] for a pattern without groups. *)
Fixpoint find_scan (m : matcher) (skip : nat) (pv : option ascii) (s : str)
  : list str :=
  match s with
  | [] => []
  | c :: s' =>
      match skip with
      | S k => find_scan m k (Some c) s'
      | O =>
          match m pv s with
          | Some (S len) => firstn (S len) s :: find_scan m len (Some c) s'
          | _ => find_scan m 0 (Some c) s'
          end
      end
  end.

Definition re_findall (r : regex) (s : str) : list str :=
  find_scan (re_matcher r) 0 None s.

(** [re.search(pattern, s) is not None] *)
Fixpoint search_scan (m : matcher) (pv : option ascii) (s : str) : bool :=
  match m pv s with
  | Some _ => true
  | None =>
      match s with
      | [] => false
      | c :: s' => search_scan m (Some c) s'
      end
  end.

Definition re_search (r : regex) (s : str) : bool :=
  search_scan (re_matcher r) None s.

(** * rename.py *)

Module Rename.

(** ** Protected patterns *)

Definition PROTECTED_PATTERNS : list regex := [
  (* File name patterns (most specific first) *)
  Lit (lit "cdktf.tf.json");
  Lit (lit "cdktf.json");
  Lit (lit "cdktf.out");
  Lit (lit "cdktf.log");
  (* Environment variables: CDKTF_ followed by uppercase letter *)
  Seq (Lit (lit "CDKTF_")) (Seq (Cls is_upper) (Star is_word));
  Lit (lit "GITHUB_API_TOKEN_CDKTF");
  (* Paths and internals *)
  Lit (lit "~/.cdktf");
  Seq (Lit (lit "__cdktf_")) (Star is_word);
  (* CLI flag *)
  Lit (lit "--cdktf-version");
  (* Template variables *)
  Lit (lit "npm_cdktf_cli");
  Seq (Lit (lit "npm_cdktf")) (NotAhead (ch "_"));
  Lit (lit "pypi_cdktf");
  Lit (lit "mvn_cdktf");
  Lit (lit "nuget_cdktf");
  Lit (lit "cdktf_version");
  (* Shell completion internal function names *)
  Lit (lit "_cdktf_yargs_completions");
  (* GitHub org "cdktf" *)
  Lit (lit "github.com/cdktf/");
  (* Third-party package names *)
  Lit (lit "cdktf-tf-module-stack");
  Lit (lit "projen-cdktf-hybrid-construct")
].

(** ** Protection layer *)

(** [f"{n:04d}"] : decimal digits, padded with zeros to four. *)
Fixpoint digits (d : Decimal.uint) : str :=
  match d with
  | Decimal.Nil => []
  | Decimal.D0 l => ch "0" :: digits l
  | Decimal.D1 l => ch "1" :: digits l
  | Decimal.D2 l => ch "2" :: digits l
  | Decimal.D3 l => ch "3" :: digits l
  | Decimal.D4 l => ch "4" :: digits l
  | Decimal.D5 l => ch "5" :: digits l
  | Decimal.D6 l => ch "6" :: digits l
  | Decimal.D7 l => ch "7" :: digits l
  | Decimal.D8 l => ch "8" :: digits l
  | Decimal.D9 l => ch "9" :: digits l
  end.

Definition decimal (n : N) : str := digits (N.to_uint n).

Definition zfill4 (d : str) : str :=
  repeat (ch "0") (4 - List.length d) ++ d.

(** [f"<<PROT_{counter[0]:04d}>>"] *)
Definition sentinel (n : N) : str :=
  lit "<<PROT_" ++ zfill4 (decimal n) ++ lit ">>".

(** The state shared by the replacers of one [protect] call: the counter and
    the restorations list. *)
Definition prot_state : Type := N * list (str * str).

Definition replacer (st : prot_state) (matched : str) : prot_state * str :=
  let (counter, restorations) := st in
  let s := sentinel counter in
  ((N.succ counter, restorations ++ [(s, matched)]), s).

Definition protect_rule (acc : str * prot_state) (pattern : regex)
  : str * prot_state :=
  let (content, st) := acc in
  sub_scan (re_matcher pattern) replacer 0 None content st.

Definition protect_with (patterns : list regex) (content : str)
  : str * list (str * str) :=
  let '(content', (_, restorations)) :=
    fold_left protect_rule patterns (content, (0%N, [])) in
  (content', restorations).

Definition protect (content : str) : str * list (str * str) :=
  protect_with PROTECTED_PATTERNS content.

Definition restore_step (content : str) (e : str * str) : str :=
  let (s, original) := e in replace s original content.

Definition restore (content : str) (restorations : list (str * str)) : str :=
  fold_left restore_step (rev restorations) content.

(** The open question of the design notes: replaying in insertion order. *)
Definition restore_forward (content : str) (restorations : list (str * str))
  : str :=
  fold_left restore_step restorations content.

(** ** Link rewrites (all files).  The review log kept by the source does not
    touch the content and is left out. *)

Definition rename_links (content : str) : str :=
  let content := re_sub_re (Lit (lit "](/terraform/cdktf/")) (lit "](/docs/") content in
  let content := replace (lit "github.com/hashicorp/terraform-cdk")
                         (lit "github.com/open-constructs/cdk-terrain") content in
  let content := replace (lit "hashicorp/terraform-cdk")
                         (lit "open-constructs/cdk-terrain") content in
  content.

(** ** Content rewrites (non-release files only) *)

Definition dq : string := String (ascii_of_nat 34) EmptyString.

Inductive step : Type :=
| Repl (old new : string)        (* content.replace(old, new) *)
| Sub (r : regex) (new : string). (* re.sub(r, new, content) *)

Definition run_step (content : str) (s : step) : str :=
  match s with
  | Repl old new => replace (lit old) (lit new) content
  | Sub r new => re_sub_re r (lit new) content
  end.

Definition CONTENT_STEPS : list step := [
  (* Go module path *)
  Repl "hashicorp/terraform-cdk-go/cdktf" "open-constructs/cdk-terrain-go/cdktn";
  (* Java package namespace, Maven coordinate *)
  Repl "com.hashicorp.cdktf" "io.cdktn.cdktn";
  Repl "com.hashicorp:cdktf" "io.cdktn:cdktn";
  (* C# namespace *)
  Repl "HashiCorp.Cdktf" "Io.Cdktn";
  (* Python provider imports *)
  Repl "from cdktf_cdktf_provider_" "from cdktn_provider_";
  Repl "cdktf_cdktf_provider_" "cdktn_provider_";
  Repl "cdktf-cdktf-provider-" "cdktn-provider-";
  (* Python core import *)
  Repl "from cdktf import" "from cdktn import";
  (* TypeScript/JavaScript imports *)
  Repl ("from " ++ dq ++ "cdktf" ++ dq) ("from " ++ dq ++ "cdktn" ++ dq);
  Repl "from 'cdktf'" "from 'cdktn'";
  Repl ("require(" ++ dq ++ "cdktf" ++ dq ++ ")") ("require(" ++ dq ++ "cdktn" ++ dq ++ ")");
  Repl "require('cdktf')" "require('cdktn')";
  (* Scoped npm packages *)
  Repl "@cdktf/provider-" "@cdktn/provider-";
  Repl "@cdktf/aws-cdk" "@cdktn/aws-cdk";
  Repl "@cdktf/" "@cdktn/";
  (* CLI and package names *)
  Repl "cdktf-cli" "cdktn-cli";
  Repl "cdktf-construct" "cdktn-construct";
  (* Projen class and config *)
  Repl "ConstructLibraryCdktf" "ConstructLibraryCdktn";
  Repl "cdktfVersion" "cdktnVersion";
  (* Project name *)
  Repl "CDK for Terraform (CDKTF)" "CDK Terrain (CDKTN)";
  Repl "CDK for Terraform" "CDK Terrain";
  (* Acronym, word-boundary match *)
  Sub (Seq WordB (Seq (Lit (lit "CDKTF")) WordB)) "CDKTN";
  (* Go package qualifiers *)
  Sub (Seq WordB (Lit (lit "cdktf."))) "cdktn.";
  (* Quoted package name *)
  Repl (dq ++ "cdktf" ++ dq) (dq ++ "cdktn" ++ dq);
  Repl "'cdktf'" "'cdktn'";
  (* Backtick-wrapped standalone *)
  Repl "`cdktf`" "`cdktn`";
  (* Projen destructuring *)
  Repl "{ cdktf }" "{ cdktn }";
  (* CLI command at start of inline code or shell prompt *)
  Sub (Lit (lit "`cdktf ")) "`cdktn ";
  Sub (Lit (lit "$ cdktf ")) "$ cdktn ";
  (* CLI command in code blocks (MULTILINE) *)
  Sub (Seq Bol (Lit (lit "cdktf "))) "cdktn ";
  (* Narrative references *)
  Sub (Seq WordB (Seq (Lit (lit "cdktf")) WordB)) "cdktn"
].

Definition rename_content (content : str) : str :=
  fold_left run_step CONTENT_STEPS content.

(** ** File processing *)

Definition DOCS_DIR : str := lit "docs".
(** [os.path.join(DOCS_DIR, "release")] *)
Definition RELEASE_DIR : str := DOCS_DIR ++ lit "/" ++ lit "release".

Definition is_release_file (filepath : str) : bool :=
  contains RELEASE_DIR filepath.

(** The protect / rename / restore pipeline of [process_file] over the text
    read from the file. *)
Definition pipeline (release : bool) (original : str) : str :=
  let (content, restorations) := protect original in
  let content := rename_links content in
  let content := if negb release then rename_content content else content in
  restore content restorations.

Definition SENTINEL_RE : regex :=
  Seq (Lit (lit "<<PROT_"))
      (Seq (Cls is_digit) (Seq (Cls is_digit) (Seq (Cls is_digit)
      (Seq (Cls is_digit) (Lit (lit ">>")))))).

(** [repr] of a list of strings that hold no quote and no backslash. *)
Fixpoint repr_items (l : list str) : str :=
  match l with
  | [] => []
  | [s] => lit "'" ++ s ++ lit "'"
  | s :: l' => lit "'" ++ s ++ lit "', " ++ repr_items l'
  end.

Definition repr_list (l : list str) : str := lit "[" ++ repr_items l ++ lit "]".

Record stats : Type := Stats {
  st_filepath : str;
  st_release : bool;
  st_changed : bool;
  st_protections : nat
}.

(** What [process_file] does once the file is read: the lines it prints,
    the content it writes back (if any) and the stats it returns.  The diff
    summary printed by a dry run is left out. *)
Definition process_file (filepath original : str) (dry_run : bool)
  : list str * option str * stats :=
  let release := is_release_file filepath in
  (* Step 1: Protect *)
  let (content, restorations) := protect original in
  (* Step 2: Rename *)
  let content := rename_links content in
  let content := if negb release then rename_content content else content in
  (* Step 3: Restore *)
  let content := restore content restorations in
  (* Check for leftover sentinels *)
  let sentinel_check := re_findall SENTINEL_RE content in
  let printed :=
    match sentinel_check with
    | [] => []
    | _ => [lit "  ERROR: Leftover sentinels in " ++ filepath ++ lit ": "
              ++ repr_list sentinel_check]
    end in
  let changed := negb (str_eqb content original) in
  let written := if changed && negb dry_run then Some content else None in
  (printed, written, Stats filepath release changed (List.length restorations)).

(** The files on disk: paths with their contents. *)
Definition files : Type := list (str * str).

Fixpoint read_file (fs : files) (path : str) : option str :=
  match fs with
  | [] => None
  | (p, c) :: fs' => if str_eqb p path then Some c else read_file fs' path
  end.

Fixpoint write_file (fs : files) (path content : str) : files :=
  match fs with
  | [] => [(path, content)]
  | (p, c) :: fs' =>
      if str_eqb p path then (p, content) :: fs'
      else (p, c) :: write_file fs' path content
  end.

(** The loop of [main] over the files to process (paths are taken relative
    to the working directory, so [os.path.relpath] is the identity): the files
    after the run, the lines printed, and the counts of changed files, of
    release files and of protections. *)
Fixpoint run_files (fs : files) (paths : list str) (dry_run : bool)
  : files * list str * (nat * nat * nat) :=
  match paths with
  | [] => (fs, [], (0, 0, 0))
  | filepath :: paths' =>
      match read_file fs filepath with
      | None =>
          let '(fs', out, counts) := run_files fs paths' dry_run in
          (fs', (lit "  MISSING: " ++ filepath) :: out, counts)
      | Some original =>
          let tag := if is_release_file filepath
                     then lit " [release: links only]" else [] in
          let '(printed, written, st) := process_file filepath original dry_run in
          let fs1 := match written with
                     | Some content => write_file fs filepath content
                     | None => fs
                     end in
          let '(fs', out, (changed_count, release_count, total_protections)) :=
            run_files fs1 paths' dry_run in
          (fs',
           (lit "Processing: " ++ filepath ++ tag) :: printed ++ out,
           ((if st_changed st then 1 else 0) + changed_count,
            (if st_release st then 1 else 0) + release_count,
            st_protections st + total_protections))
      end
  end.

(** The texts a sentinel can be: [<<PROT_], four digits or more, [>>]
    (the counter is padded to four digits, not cut to them). *)
Definition SENTINEL_SHAPE : regex :=
  Seq (Lit (lit "<<PROT_"))
      (Seq (Cls is_digit) (Seq (Cls is_digit) (Seq (Cls is_digit)
      (Seq (Cls is_digit) (Seq (Star is_digit) (Lit (lit ">>"))))))).

Definition sentinel_shaped (content : str) : bool :=
  re_search SENTINEL_SHAPE content.

End Rename.

(** * convert.py *)

Module Convert.

(** [s.strip()] *)
Fixpoint lstrip (s : str) : str :=
  match s with
  | c :: s' => if is_space c then lstrip s' else s
  | [] => []
  end.

Definition strip (s : str) : str := rev (lstrip (rev (lstrip s))).

(** Language identifier -> display title for code fence tabs *)
Definition entry (k v : string) : string * string := (k, v).

Definition LANG_TITLES : list (string * string) := [
  entry "ts" "TypeScript";
  entry "typescript" "TypeScript";
  entry "python" "Python";
  entry "java" "Java";
  entry "csharp" "C#";
  entry "go" "Go";
  entry "shell-session" "Shell";
  entry "shell" "Shell";
  entry "bash" "Bash";
  entry "json" "JSON";
  entry "hcl" "HCL";
  entry "terraform" "HCL"
].

(** [LANG_TITLES.get(lang, "")] *)
Fixpoint lookup (table : list (string * string)) (key : str) : str :=
  match table with
  | [] => []
  | (k, v) :: table' => if str_eqb (lit k) key then lit v else lookup table' key
  end.

(** ** Duplicate H1 *)

Definition is_nl (c : ascii) : bool := Ascii.eqb c nl.

(** [(---\n)\n*# .+\n\n?] *)
Definition DUPLICATE_H1 : regex :=
  Seq (Group (Lit (lit "---" ++ [nl])))
      (Seq (Star is_nl)
      (Seq (Lit (lit "# "))
      (Seq (Plus not_nl)
      (Seq (Lit [nl]) (Opt (Lit [nl])))))).

(** [re.sub(pattern, repl, s, count=1)] with a template that uses the
    groups: only the leftmost match is replaced. *)
Fixpoint sub_first (r : regex) (repl : list str -> str) (pv : option ascii)
         (s : str) : str :=
  match rmatch r (MState pv 0 []) s (fun st _ => Some (pos st, caps st)) with
  | Some (n, groups) => repl groups ++ skipn n s
  | None =>
      match s with
      | [] => []
      | c :: s' => c :: sub_first r repl (Some c) s'
      end
  end.

(** The template [\1\n]. *)
Definition remove_duplicate_h1 (content : str) : str :=
  sub_first DUPLICATE_H1 (fun groups => nth 0 groups [] ++ [nl]) None content.

(** ** Code tabs *)

Definition word_or_dash (c : ascii) : bool := is_word c || Ascii.eqb c (ch "-").

(** [^(```)([\w-]+)\s*$] *)
Definition FENCE_OPEN : regex :=
  Seq Bos
      (Seq (Group (Lit (lit "```")))
      (Seq (Group (Plus word_or_dash))
      (Seq (Star is_space) Eos))).

(** The state of the loop: [in_codegroup] and [in_code_block]. *)
Record scope : Type := Scope {
  in_codegroup : bool;
  in_code_block : bool
}.

(** One turn of the loop of [convert_codetabs]: the state after the line and
    the line appended to [result]. *)
Definition codetabs_line (st : scope) (line : str) : scope * str :=
  if contains (lit "<CodeGroup>") line then
    (Scope true (in_code_block st), line)
  else if contains (lit "</CodeGroup>") line then
    (Scope false (in_code_block st), line)
  else
    match (if in_codegroup st && negb (in_code_block st)
           then re_match FENCE_OPEN line else None) with
    | Some groups =>
        let lang := nth 1 groups [] in
        let title := lookup LANG_TITLES lang in
        let line' :=
          match title with
          | [] => line
          | _ => lit "```" ++ lang ++ lit " " ++ title
          end in
        (Scope (in_codegroup st) true, line')
    | None =>
        let closes :=
          in_code_block st && starts_with (lit "```") line
          && str_eqb (strip line) (lit "```") in
        (Scope (in_codegroup st) (if closes then false else in_code_block st),
         line)
    end.

Fixpoint codetabs_loop (st : scope) (lines : list str) : list str :=
  match lines with
  | [] => []
  | line :: lines' =>
      let (st', out) := codetabs_line st line in
      out :: codetabs_loop st' lines'
  end.

Definition convert_codetabs (content : str) : str :=
  (* Step 1: Rename tags *)
  let content := replace (lit "<CodeTabs>") (lit "<CodeGroup>") content in
  let content := replace (lit "</CodeTabs>") (lit "</CodeGroup>") content in
  (* Step 2: Add titles to code fences inside CodeGroup blocks *)
  join_lines (codetabs_loop (Scope false false) (split_lines content)).

(** ** Callouts *)

(** [^PREFIX\s*\*\*LABEL:?\*\*:?\s*(.+)$] *)
Definition LABELLED (prefix : string) (label : regex) : regex :=
  Seq Bos
      (Seq (Lit (lit prefix))
      (Seq (Star is_space)
      (Seq (Lit (lit "**"))
      (Seq label
      (Seq (Opt (Lit (lit ":")))
      (Seq (Lit (lit "**"))
      (Seq (Opt (Lit (lit ":")))
      (Seq (Star is_space)
      (Seq (Group (Plus not_nl)) Eos))))))))).

(** [^PREFIX\s*(.+)$] *)
Definition UNLABELLED (prefix : string) : regex :=
  Seq Bos
      (Seq (Lit (lit prefix))
      (Seq (Star is_space)
      (Seq (Group (Plus not_nl)) Eos))).

Definition space_or_dash (c : ascii) : bool := is_space c || Ascii.eqb c (ch "-").
Definition big_or_small_o (c : ascii) : bool :=
  Ascii.eqb c (ch "O") || Ascii.eqb c (ch "o").

(** [Hands[\s-][Oo]n] *)
Definition HANDS_ON : regex :=
  Seq (Lit (lit "Hands"))
      (Seq (Cls space_or_dash) (Seq (Cls big_or_small_o) (Lit (lit "n")))).

(** The patterns of a translator in the order they are tried, each with the
    component it produces. *)
Definition rule (r : regex) (tag : string) : regex * string := (r, tag).

Definition ARROW_RULES : list (regex * string) := [
  rule (LABELLED "~>" (Lit (lit "Warning"))) "Warning";
  rule (LABELLED "~>" (Lit (lit "Important"))) "Warning";
  rule (LABELLED "~>" (Lit (lit "Note"))) "Note";
  rule (LABELLED "->" (Lit (lit "Note"))) "Note";
  rule (LABELLED "+->" (Lit (lit "Note"))) "Tip";
  rule (UNLABELLED "+->") "Tip"
].

Definition BLOCKQUOTE_RULES : list (regex * string) := [
  rule (LABELLED ">" (Lit (lit "Note"))) "Note";
  rule (LABELLED ">" HANDS_ON) "Tip"
].

(** [f"<{tag}>{m.group(1)}</{tag}>"] for the first pattern that matches,
    the line itself when none does. *)
Fixpoint callout_line (rules : list (regex * string)) (line : str) : str :=
  match rules with
  | [] => line
  | (r, tag) :: rules' =>
      match re_match r line with
      | Some groups =>
          lit "<" ++ lit tag ++ lit ">" ++ nth 0 groups []
          ++ lit "</" ++ lit tag ++ lit ">"
      | None => callout_line rules' line
      end
  end.

Definition convert_arrow_callouts (content : str) : str :=
  join_lines (map (callout_line ARROW_RULES) (split_lines content)).

Definition convert_blockquote_callouts (content : str) : str :=
  join_lines (map (callout_line BLOCKQUOTE_RULES) (split_lines content)).

End Convert.

Unset Implicit Arguments.
Import Rename.
Import Convert.

(** * Vocabulary of the statements *)

(** [x] occurs in [t] as a contiguous substring. *)
Definition occurs (x t : str) : Prop := exists a b, t = a ++ x ++ b.

(** Number of positions of [t] at which [x] starts. *)
Fixpoint count (x t : str) : nat :=
  (if starts_with x t then 1 else 0) +
  match t with
  | [] => 0
  | _ :: t' => count x t'
  end.

(** One of the two texts is a prefix of the other. *)
Definition comparable (x y : str) : Prop :=
  exists w, x = y ++ w \/ y = x ++ w.

(** Two texts are apart when their occurrences in a common text never
    overlap, unless they are one and the same occurrence. *)
Definition apart (u v : str) : Prop :=
  forall a b a' b',
    a ++ u ++ b = a' ++ v ++ b' ->
    List.length a + List.length u <= List.length a' \/
    List.length a' + List.length v <= List.length a \/
    (a = a' /\ u = v).

(** No suffix of [u] meets a prefix of [v], unless [u = v] as a whole. *)
Definition no_hit (u v : str) : Prop :=
  forall l l', u = l ++ l' -> l' <> [] -> comparable l' v -> l = [] /\ l' = v.

Definition lt_c : ascii := ch "<".
Definition gt_c : ascii := ch ">".

Definition angle (c : ascii) : bool := Ascii.eqb c lt_c || Ascii.eqb c gt_c.

(** The characters a sentinel is made of. *)
Definition sent_char (c : ascii) : bool :=
  is_digit c || existsb (Ascii.eqb c) (lit "<>PROT_").

(** A clean word has no angle bracket and some character that no sentinel
    has: every protected match and every rename pattern is one. *)
Definition clean (w : str) : bool :=
  forallb (fun c => negb (angle c)) w && existsb (fun c => negb (sent_char c)) w.

(** The shape of a sentinel: [<], sentinel characters, [>]. *)
Definition sent_like (v : str) : Prop :=
  exists body, v = lt_c :: body ++ [gt_c] /\ forallb sent_char body = true.

Definition digit_cons (c : ascii) (u : Decimal.uint) : Decimal.uint :=
  match nat_of_ascii c - 48 with
  | 0 => Decimal.D0 u | 1 => Decimal.D1 u | 2 => Decimal.D2 u
  | 3 => Decimal.D3 u | 4 => Decimal.D4 u | 5 => Decimal.D5 u
  | 6 => Decimal.D6 u | 7 => Decimal.D7 u | 8 => Decimal.D8 u
  | _ => Decimal.D9 u
  end.

Fixpoint undigits (s : str) : Decimal.uint :=
  match s with
  | [] => Decimal.Nil
  | c :: s' => digit_cons c (undigits s')
  end.

(** What follows the two opening brackets. *)
Definition sent_tail (n : N) : str :=
  lit "PROT_" ++ zfill4 (decimal n) ++ lit ">>".

(** A matcher never claims more than the text holds, and what it matches
    belongs to [L]. *)
Definition matches_in (m : matcher) (L : str -> Prop) : Prop :=
  forall pv s n, m pv s = Some (S n) ->
    S n <= List.length s /\ L (firstn (S n) s).

Definition scan1 (m : matcher) (new : str) (pv : option ascii) (s : str) : str :=
  fst (sub_scan m (fun (st : unit) _ => (st, new)) 0 pv s tt).

Fixpoint lang (r : regex) (w : str) : Prop :=
  match r with
  | Lit l => w = l
  | Cls p => exists c, w = [c] /\ p c = true
  | Star p => forallb p w = true
  | Plus p => w <> [] /\ forallb p w = true
  | Opt r' => w = [] \/ lang r' w
  | Seq r1 r2 => exists u v, w = u ++ v /\ lang r1 u /\ lang r2 v
  | Group r' => lang r' w
  | NotAhead _ | WordB | Bos | Bol | Eos => w = []
  end.

(** The same, with the groups a match captures. *)
Fixpoint clang (r : regex) (w : str) (cs : list str) : Prop :=
  match r with
  | Lit l => w = l /\ cs = []
  | Cls p => (exists c, w = [c] /\ p c = true) /\ cs = []
  | Star p => forallb p w = true /\ cs = []
  | Plus p => (w <> [] /\ forallb p w = true) /\ cs = []
  | Opt r' => (w = [] /\ cs = []) \/ clang r' w cs
  | Seq r1 r2 =>
      exists u v c1 c2,
        w = u ++ v /\ cs = c1 ++ c2 /\ clang r1 u c1 /\ clang r2 v c2
  | Group r' => exists c1, clang r' w c1 /\ cs = c1 ++ [w]
  | NotAhead _ | WordB | Bos | Bol | Eos => w = [] /\ cs = []
  end.

(** The continuation runs on what is left after a word of the language. *)
Definition runs (A : Type) (r : regex) (st : mstate) (s : str)
           (k : mstate -> str -> option A) (x : A) : Prop :=
  exists w rest cs,
    s = w ++ rest /\ clang r w cs /\
    k (MState (last_char (prev st) w) (pos st + List.length w) (caps st ++ cs))
      rest = Some x.

Arguments runs {A} r st s k x.

Fixpoint no_angle_re (r : regex) : bool :=
  match r with
  | Lit l => forallb (fun c => negb (angle c)) l
  | Cls p | Star p | Plus p => negb (p lt_c) && negb (p gt_c)
  | Opt r' | Group r' => no_angle_re r'
  | Seq r1 r2 => no_angle_re r1 && no_angle_re r2
  | _ => true
  end.

Fixpoint anchored (r : regex) : bool :=
  match r with
  | Lit l => existsb (fun c => negb (sent_char c)) l
  | Seq r1 r2 => anchored r1 || anchored r2
  | Group r' => anchored r'
  | _ => false
  end.

Definition clean_re (r : regex) : bool := no_angle_re r && anchored r.

Definition is_clean (w : str) : Prop := clean w = true.

(** The restorations recorded for the matches [ws], from counter [n] on. *)
Fixpoint number (n : N) (ws : list str) : list (str * str) :=
  match ws with
  | [] => []
  | w :: ws' => (sentinel n, w) :: number (N.succ n) ws'
  end.

Definition upto (n : N) (ws : list str) : N := (n + N.of_nat (List.length ws))%N.

(** Indicator of [n <= k < n'] *)
Definition within (n n' k : N) : nat :=
  if (n <=? k)%N && (k <? n')%N then 1 else 0.

(** What the passes over [pats] do to a text [c], from counter [n] on. *)
Record passes_spec (pats : list regex) (c : str) (n : N)
       (rs : list (str * str)) (ws : list str) : Prop := {
  ps_state : snd (fold_left protect_rule pats (c, (n, rs)))
             = (upto n ws, rs ++ number n ws);
  ps_clean : Forall is_clean ws;
  ps_count : forall k,
      count (sentinel k) (fst (fold_left protect_rule pats (c, (n, rs))))
      = count (sentinel k) c + within n (upto n ws) k;
  ps_restore :
      (forall j, (n <= j)%N -> count (sentinel j) c = 0) ->
      restore (fst (fold_left protect_rule pats (c, (n, rs)))) (number n ws) = c
}.

Definition step_clean (s : step) : bool :=
  match s with
  | Repl old _ => clean (lit old)
  | Sub r _ => clean_re r
  end.

(** Where a greedy repetition has to stop. *)
Definition stops (p : ascii -> bool) (rest : str) : Prop :=
  match rest with
  | [] => True
  | c :: _ => p c = false
  end.

(** Two steps of a fold commute. *)
Definition commute {T E : Type} (f : T -> E -> T) (e1 e2 : E) : Prop :=
  forall t, f (f t e1) e2 = f (f t e2) e1.

(** The text protected by the first pattern. *)
Definition tf_json : str := lit "cdktf.tf.json".

(** A document that holds 10001 protected file names and then the text of
    sentinel 10000. *)
Definition many_matches : str :=
  List.concat (repeat tf_json (N.to_nat 10001)) ++ lit "<<PROT_10000>>".

Definition after (st : mstate) (w : str) : mstate :=
  MState (last_char (prev st) w) (pos st + List.length w) (caps st).

Definition comparableb (x y : str) : bool := starts_with x y || starts_with y x.

Fixpoint no_hitb_from (first : bool) (u v : str) : bool :=
  match u with
  | [] => true
  | _ :: u' =>
      (if comparableb u v then first && str_eqb u v else true)
      && no_hitb_from false u' v
  end.

Definition apartb (u v : str) : bool :=
  match u, v with
  | [], _ | _, [] => false
  | _, _ => no_hitb_from true u v && no_hitb_from true v u
  end.

Definition colon (b : bool) : str := if b then lit ":" else [].

(** A body that the final group captures whole: it starts with neither a
    space nor a colon and holds no newline. *)
Definition good_body (body : str) : bool :=
  match body with
  | b0 :: _ =>
      negb (is_space b0) && negb (Ascii.eqb b0 (ch ":")) && forallb not_nl body
  | [] => false
  end.

(** [PREFIX ws **LABEL:?**:? ws BODY] *)
Definition labelled_line (prefix : string) (ws1 ltext : str) (c1 c2 : bool)
           (ws2 body : str) : str :=
  lit prefix ++ ws1 ++ lit "**" ++ ltext ++ colon c1 ++ lit "**" ++ colon c2
  ++ ws2 ++ body.

Definition unlabelled_line (prefix : string) (ws body : str) : str :=
  lit prefix ++ ws ++ body.

Definition tagged (tag : string) (body : str) : str :=
  lit "<" ++ lit tag ++ lit ">" ++ body ++ lit "</" ++ lit tag ++ lit ">".

(** The end of a frontmatter block, or any other line of three dashes. *)
Definition dashes : str := lit "---" ++ [nl].

(** Whether the pattern matches at a position. *)
Definition h1_at (pv : option ascii) (s : str) : option (nat * list str) :=
  rmatch DUPLICATE_H1 (MState pv 0 []) s (fun st _ => Some (pos st, caps st)).

(** One newline less at the front, if there is one. *)
Definition drop_nl (s : str) : str :=
  match s with
  | c :: s' => if Ascii.eqb c nl then s' else s
  | [] => []
  end.

(** A heading line after a line of dashes and [k] blank lines. *)
Definition heading_after_dashes (k : nat) (h rest : str) : str :=
  dashes ++ repeat nl k ++ lit "# " ++ h ++ nl :: rest.

(** A fence line: the three backticks, a language identifier, spaces. *)
Definition fence_line (lang ws : str) : str := lit "```" ++ lang ++ ws.

Definition is_fence (lang ws : str) : Prop :=
  lang <> [] /\ forallb word_or_dash lang = true /\ forallb is_space ws = true.

Definition printed_by (r : list str * option str * stats) : list str := fst (fst r).
Definition written_by (r : list str * option str * stats) : option str := snd (fst r).

(** The line that reports a protection leak. *)
Definition leak_report (filepath : str) (leftover : list str) : str :=
  lit "  ERROR: Leftover sentinels in " ++ filepath ++ lit ": " ++ repr_list leftover.

Definition processing_line (filepath : str) : str :=
  lit "Processing: " ++ filepath ++
  (if is_release_file filepath then lit " [release: links only]" else []).

Definition ACRONYM : str := lit "CDKTF".

(** * Properties *)

(** * Texts: prefixes, occurrences, counting *)

Lemma ascii_eqb_refl (c : ascii) : Ascii.eqb c c = true.
Proof. apply Ascii.eqb_eq; reflexivity. Qed.

Lemma strip_prefix_app (p s : str) : strip_prefix p (p ++ s) = Some s.
Proof.
  induction p as [|a p IH]; simpl; [reflexivity|].
  rewrite ascii_eqb_refl; exact IH.
Qed.

Lemma strip_prefix_Some (p s r : str) :
  strip_prefix p s = Some r -> s = p ++ r.
Proof.
  revert s; induction p as [|a p IH]; simpl; intros s H.
  - congruence.
  - destruct s as [|b s]; [discriminate|].
    destruct (Ascii.eqb a b) eqn:E; [|discriminate].
    apply Ascii.eqb_eq in E; subst b. f_equal; auto.
Qed.

Lemma starts_with_true (p s : str) :
  starts_with p s = true <-> exists r, s = p ++ r.
Proof.
  unfold starts_with; split.
  - destruct (strip_prefix p s) eqn:E; [|discriminate].
    intros _; exists s0; apply strip_prefix_Some; exact E.
  - intros [r ->]; rewrite strip_prefix_app; reflexivity.
Qed.

Lemma starts_with_app (p s : str) : starts_with p (p ++ s) = true.
Proof. apply starts_with_true; eauto. Qed.

Lemma occurs_cons (x t : str) (c : ascii) : occurs x t -> occurs x (c :: t).
Proof. intros (a & b & ->); exists (c :: a), b; reflexivity. Qed.

Lemma occurs_app_l (x t p : str) : occurs x t -> occurs x (p ++ t).
Proof.
  intros (a & b & ->); exists (p ++ a), b; rewrite <- app_assoc; reflexivity.
Qed.

Lemma occurs_app_r (x t q : str) : occurs x t -> occurs x (t ++ q).
Proof.
  intros (a & b & ->); exists a, (b ++ q); rewrite <- !app_assoc; reflexivity.
Qed.

Lemma occurs_here (x a b : str) : occurs x (a ++ x ++ b).
Proof. exists a, b; reflexivity. Qed.

Lemma occurs_uncons (x t : str) (c : ascii) :
  occurs x (c :: t) -> starts_with x (c :: t) = true \/ occurs x t.
Proof.
  intros (a & b & E). destruct a as [|a0 a]; simpl in E.
  - left; apply starts_with_true; eauto.
  - right; injection E as _ ->; apply occurs_here.
Qed.

Lemma count_pos_occurs (x t : str) : 0 < count x t <-> occurs x t.
Proof.
  split.
  - induction t as [|c t IH]; simpl.
    + destruct (starts_with x []) eqn:E; [|lia].
      intros _; apply starts_with_true in E as [r E]; exists [], r; exact E.
    + destruct (starts_with x (c :: t)) eqn:E.
      * intros _; apply starts_with_true in E as [r E]; exists [], r; exact E.
      * simpl; intros H; apply occurs_cons, IH, H.
  - induction t as [|c t IH]; intros H.
    + destruct H as (a & b & E). destruct a; [|discriminate].
      simpl in E. simpl. replace (starts_with x []) with true; [lia|].
      symmetry; apply starts_with_true; eauto.
    + simpl. apply occurs_uncons in H as [H|H].
      * rewrite H; lia.
      * apply IH in H; lia.
Qed.

Lemma count_zero_not_occurs (x t : str) : count x t = 0 <-> ~ occurs x t.
Proof.
  rewrite <- count_pos_occurs; lia.
Qed.

Lemma contains_occurs (p s : str) : contains p s = true <-> occurs p s.
Proof.
  split.
  - induction s as [|c s IH]; simpl.
    + rewrite orb_false_r; intros H; apply starts_with_true in H as [r E].
      exists [], r; exact E.
    + intros H; apply orb_true_iff in H as [H|H].
      * apply starts_with_true in H as [r E]; exists [], r; exact E.
      * apply occurs_cons, IH, H.
  - induction s as [|c s IH]; intros H.
    + destruct H as (a & b & E). destruct a; [|discriminate]. simpl in *.
      rewrite orb_false_r; apply starts_with_true; eauto.
    + simpl; apply orb_true_iff.
      apply occurs_uncons in H as [H|H]; [left; exact H|right; auto].
Qed.

Lemma comparable_of_eq (x y b b' : str) : x ++ b = y ++ b' -> comparable x y.
Proof.
  intros E; apply app_eq_app in E as [l [[-> _]|[-> _]]]; exists l; auto.
Qed.

Lemma comparable_head (c d : ascii) (x y : str) :
  comparable (c :: x) (d :: y) -> c = d.
Proof. intros [w [E|E]]; simpl in E; congruence. Qed.

Lemma comparable_tail (c d : ascii) (x y : str) :
  comparable (c :: x) (d :: y) -> comparable x y.
Proof.
  intros [w [E|E]]; simpl in E; injection E as _ E; exists w; auto.
Qed.

Lemma apart_intro (u v : str) :
  v <> [] -> u <> [] -> no_hit u v -> no_hit v u -> apart u v.
Proof.
  intros Hv Hu H1 H2 a b a' b' E.
  apply app_eq_app in E as [l [[-> E]|[-> E]]].
  - (* u starts at or after the start of v *)
    apply app_eq_app in E as [l' [[-> E]|[-> E]]].
    + destruct l' as [|c l'].
      * right; left. rewrite !length_app; simpl; lia.
      * destruct (H2 l (c :: l') eq_refl) as [-> Ev]; [discriminate| |].
        { symmetry in E; eapply comparable_of_eq; exact E. }
        right; right; rewrite app_nil_r; split; [reflexivity|].
        simpl in *; congruence.
    + right; left. rewrite !length_app; lia.
  - apply app_eq_app in E as [l' [[-> E]|[-> E]]].
    + destruct l' as [|c l'].
      * left. rewrite !length_app; simpl; lia.
      * destruct (H1 l (c :: l') eq_refl) as [-> Ev]; [discriminate| |].
        { symmetry in E; eapply comparable_of_eq; exact E. }
        right; right; rewrite app_nil_r; split; [reflexivity|].
        simpl in *; congruence.
    + left. rewrite !length_app; lia.
Qed.

(** * Sentinels and clean words *)

Lemma forallb_app_iff (p : ascii -> bool) (x y : str) :
  forallb p (x ++ y) = true <-> forallb p x = true /\ forallb p y = true.
Proof. rewrite forallb_app, andb_true_iff; tauto. Qed.

Lemma clean_nonempty (w : str) : clean w = true -> w <> [].
Proof. intros H ->; discriminate. Qed.

Lemma sent_like_nonempty (v : str) : sent_like v -> v <> [].
Proof. intros (b & -> & _); discriminate. Qed.

Lemma sent_like_chars (v : str) : sent_like v -> forallb sent_char v = true.
Proof.
  intros (b & -> & H). simpl. rewrite forallb_app, H. reflexivity.
Qed.

Lemma last_suffix_gt (l l' body : str) :
  l ++ l' = body ++ [gt_c] -> l' <> [] -> exists l2, l' = l2 ++ [gt_c].
Proof.
  intros E Hn.
  destruct (exists_last Hn) as (l2 & c & ->).
  rewrite app_assoc in E. apply app_inj_tail in E as [_ ->]. eauto.
Qed.

Lemma no_angle_in (w x y : str) (c : ascii) :
  forallb (fun c => negb (angle c)) w = true ->
  w = x ++ c :: y -> angle c = false.
Proof.
  intros H ->. apply forallb_app_iff in H as [_ H]. simpl in H.
  apply andb_true_iff in H as [H _]. now apply negb_true_iff in H.
Qed.

Lemma clean_not_sent_chars (w : str) :
  clean w = true -> forallb sent_char w = true -> False.
Proof.
  unfold clean; intros H F. apply andb_true_iff in H as [_ H].
  apply existsb_exists in H as (c & Hin & Hc).
  rewrite forallb_forall in F. rewrite (F c Hin) in Hc. discriminate.
Qed.

Lemma no_hit_clean_sent (u v : str) :
  clean u = true -> sent_like v -> no_hit u v.
Proof.
  intros Hu (body & -> & Hb) l l' -> Hn Hc. exfalso.
  destruct l' as [|c l']; [congruence|].
  apply comparable_head in Hc; subst c.
  apply andb_true_iff in Hu as [Hu _].
  pose proof (no_angle_in _ _ _ _ Hu eq_refl) as A. discriminate.
Qed.

Lemma no_hit_sent_clean (u v : str) :
  clean u = true -> sent_like v -> no_hit v u.
Proof.
  intros Hu Hv l l' E Hn [w [Hc|Hc]]; exfalso.
  - (* [u] lies inside the sentinel *)
    apply (clean_not_sent_chars _ Hu).
    apply sent_like_chars in Hv. rewrite E, Hc in Hv.
    apply forallb_app_iff in Hv as [_ Hv].
    apply forallb_app_iff in Hv as [Hv _]. exact Hv.
  - (* [u] runs over the closing bracket *)
    destruct Hv as (body & Ev & _).
    assert (exists l2, l' = l2 ++ [gt_c]) as [l2 ->].
    { destruct l as [|c0 l].
      - simpl in E. subst l'. exists (lt_c :: body). rewrite Ev. reflexivity.
      - rewrite E in Ev. injection Ev as _ Ev.
        eapply last_suffix_gt; eauto. }
    apply andb_true_iff in Hu as [Hu _]. rewrite <- app_assoc in Hc.
    pose proof (no_angle_in _ _ _ _ Hu Hc) as A. discriminate.
Qed.

Lemma apart_clean_sent (u v : str) :
  clean u = true -> sent_like v -> apart u v.
Proof.
  intros Hu Hv. apply apart_intro.
  - now apply sent_like_nonempty.
  - now apply clean_nonempty.
  - now apply no_hit_clean_sent.
  - now apply no_hit_sent_clean.
Qed.

Lemma apart_sym (u v : str) : apart u v -> apart v u.
Proof.
  intros H a b a' b' E. symmetry in E.
  destruct (H _ _ _ _ E) as [?|[?|[? ?]]]; auto.
Qed.

Lemma clean_sent_neq (u v : str) : clean u = true -> sent_like v -> u <> v.
Proof.
  intros Hu Hv ->. eapply clean_not_sent_chars; eauto using sent_like_chars.
Qed.

(** ** Sentinels are told apart by their number *)

Lemma undigits_digits (d : Decimal.uint) : undigits (digits d) = d.
Proof. induction d; simpl; try rewrite IHd; reflexivity. Qed.

Lemma digits_are_digits (d : Decimal.uint) : forallb is_digit (digits d) = true.
Proof. induction d; simpl; auto. Qed.

Lemma zfill4_digits (d : str) :
  forallb is_digit d = true -> forallb is_digit (zfill4 d) = true.
Proof.
  intros H; unfold zfill4. rewrite forallb_app, H, andb_true_r.
  induction (4 - List.length d); simpl; auto.
Qed.

Lemma value_zfill4 (n : N) : N.of_uint (undigits (zfill4 (decimal n))) = n.
Proof.
  unfold zfill4, decimal.
  induction (4 - List.length (digits (N.to_uint n))) as [|k IH]; simpl.
  - rewrite undigits_digits. apply DecimalN.Unsigned.of_to.
  - exact IH.
Qed.

Lemma zfill4_inj (j k : N) : zfill4 (decimal j) = zfill4 (decimal k) -> j = k.
Proof.
  intros E. rewrite <- (value_zfill4 j), <- (value_zfill4 k), E. reflexivity.
Qed.

Lemma digits_comparable (x y x' y' : str) :
  forallb is_digit x = true -> forallb is_digit y = true ->
  comparable (x ++ gt_c :: x') (y ++ gt_c :: y') -> x = y.
Proof.
  revert y; induction x as [|c x IH]; intros [|d y] Hx Hy Hc; simpl in *.
  - reflexivity.
  - apply comparable_head in Hc; subst d.
    apply andb_true_iff in Hy as [Hy _]. discriminate.
  - apply comparable_head in Hc; subst c.
    apply andb_true_iff in Hx as [Hx _]. discriminate.
  - apply andb_true_iff in Hx as [_ Hx]. apply andb_true_iff in Hy as [_ Hy].
    pose proof (comparable_head _ _ _ _ Hc) as ->.
    f_equal. apply IH; auto. eapply comparable_tail; eauto.
Qed.

Lemma sentinel_eq (n : N) : sentinel n = lt_c :: lt_c :: sent_tail n.
Proof. reflexivity. Qed.

Lemma digit_sent_char (c : ascii) : is_digit c = true -> sent_char c = true.
Proof. unfold sent_char; intros ->; reflexivity. Qed.

Lemma digit_not_lt (c : ascii) : is_digit c = true -> Ascii.eqb c lt_c = false.
Proof.
  intros H. destruct (Ascii.eqb c lt_c) eqn:E; [|reflexivity].
  apply Ascii.eqb_eq in E; subst c. discriminate.
Qed.

Lemma forallb_impl (p q : ascii -> bool) (l : str) :
  (forall c, p c = true -> q c = true) ->
  forallb p l = true -> forallb q l = true.
Proof.
  intros H; rewrite !forallb_forall; auto.
Qed.

Lemma sentinel_sent_like (n : N) : sent_like (sentinel n).
Proof.
  exists (lt_c :: lit "PROT_" ++ zfill4 (decimal n) ++ [gt_c]). split.
  - unfold sentinel. simpl. rewrite <- !app_assoc. reflexivity.
  - simpl. rewrite forallb_app, andb_true_iff; split; [|reflexivity].
    eapply forallb_impl; [apply digit_sent_char|].
    apply zfill4_digits, digits_are_digits.
Qed.

Lemma sent_tail_no_lt (n : N) :
  forallb (fun c => negb (Ascii.eqb c lt_c)) (sent_tail n) = true.
Proof.
  unfold sent_tail. simpl. rewrite forallb_app, andb_true_iff; split.
  - eapply forallb_impl; [|apply zfill4_digits, digits_are_digits].
    intros c H; rewrite (digit_not_lt _ H); reflexivity.
  - reflexivity.
Qed.

Lemma sentinel_comparable (j k : N) :
  comparable (sentinel j) (sentinel k) -> j = k.
Proof.
  unfold sentinel; simpl; intros H.
  do 7 apply comparable_tail in H.
  apply zfill4_inj. eapply digits_comparable; [| |exact H];
    apply zfill4_digits, digits_are_digits.
Qed.

Lemma no_hit_sentinel (j k : N) : no_hit (sentinel j) (sentinel k).
Proof.
  intros l l' E Hn Hc.
  destruct l as [|c0 l].
  - simpl in E; subst l'. split; [reflexivity|].
    apply sentinel_comparable in Hc; subst; reflexivity.
  - exfalso. rewrite sentinel_eq in E. injection E as _ E.
    destruct l as [|c1 l].
    + simpl in E; subst l'. rewrite sentinel_eq in Hc.
      apply comparable_tail in Hc. unfold sent_tail in Hc; simpl in Hc.
      apply comparable_head in Hc. discriminate.
    + injection E as _ E.
      destruct l' as [|c l']; [congruence|].
      rewrite sentinel_eq in Hc. apply comparable_head in Hc; subst c.
      pose proof (sent_tail_no_lt j) as F. rewrite E in F.
      apply forallb_app_iff in F as [_ F]. simpl in F.
      discriminate.
Qed.

Lemma apart_sentinel (j k : N) : apart (sentinel j) (sentinel k).
Proof.
  apply apart_intro; try apply no_hit_sentinel;
    apply sent_like_nonempty, sentinel_sent_like.
Qed.

Lemma sentinel_inj (j k : N) : sentinel j = sentinel k -> j = k.
Proof.
  intros E; apply sentinel_comparable. exists []. left.
  rewrite app_nil_r; exact E.
Qed.

Lemma sentinel_nonempty (n : N) : sentinel n <> [].
Proof. discriminate. Qed.

(** * The scan of [re.sub] *)

Lemma last_char_cons (pv : option ascii) (c : ascii) (x : str) :
  last_char pv (c :: x) = last_char (Some c) x.
Proof.
  unfold last_char. destruct x as [|d x]; reflexivity.
Qed.

Lemma last_char_app (pv : option ascii) (x y : str) :
  last_char pv (x ++ y) = last_char (last_char pv x) y.
Proof.
  revert pv; induction x as [|c x IH]; intros pv; [reflexivity|].
  change ((c :: x) ++ y) with (c :: (x ++ y)).
  rewrite !last_char_cons. apply IH.
Qed.

Section Scan.
Variable St : Type.
Variable m : matcher.
Variable repl : St -> str -> St * str.

Local Abbreviation scan := (sub_scan m repl).

Lemma scan_skip (k : nat) (pv : option ascii) (s : str) (st : St) :
  scan k pv s st = scan 0 (last_char pv (firstn k s)) (skipn k s) st.
Proof.
  revert k pv; induction s as [|c s IH]; intros k pv.
  - destruct k; reflexivity.
  - destruct k as [|k]; [reflexivity|].
    simpl sub_scan at 1. rewrite IH.
    rewrite firstn_cons, skipn_cons, last_char_cons. reflexivity.
Qed.

(** The scan at a position where the pattern does not match. *)
Lemma scan_copy (pv : option ascii) (c : ascii) (s : str) (st : St) :
  (forall n, m pv (c :: s) <> Some (S n)) ->
  scan 0 pv (c :: s) st =
    (c :: fst (scan 0 (Some c) s st), snd (scan 0 (Some c) s st)).
Proof.
  intros H. simpl.
  destruct (m pv (c :: s)) as [[|n]|] eqn:E;
    try (exfalso; eapply H; eauto; fail);
    destruct (sub_scan m repl 0 (Some c) s st); reflexivity.
Qed.

(** The scan at a position where the pattern matches [S n] characters. *)
Lemma scan_hit (pv : option ascii) (s : str) (st : St) (n : nat) :
  s <> [] -> m pv s = Some (S n) ->
  scan 0 pv s st =
    (snd (repl st (firstn (S n) s)) ++
     fst (scan 0 (last_char pv (firstn (S n) s)) (skipn (S n) s)
               (fst (repl st (firstn (S n) s)))),
     snd (scan 0 (last_char pv (firstn (S n) s)) (skipn (S n) s)
               (fst (repl st (firstn (S n) s))))).
Proof.
  intros Hs E. destruct s as [|c s]; [congruence|].
  cbn [sub_scan]. rewrite E.
  destruct (repl st (firstn (S n) (c :: s))) as [st1 out] eqn:R.
  rewrite scan_skip.
  rewrite firstn_cons, last_char_cons, skipn_cons. simpl.
  destruct (sub_scan m repl 0 _ (skipn n s) st1); reflexivity.
Qed.

(** Induction along the scan. *)
Lemma scan_ind (P : option ascii -> str -> Prop) :
  (forall pv, P pv []) ->
  (forall pv c s,
      (forall n, m pv (c :: s) <> Some (S n)) ->
      P (Some c) s -> P pv (c :: s)) ->
  (forall pv s n,
      s <> [] -> m pv s = Some (S n) ->
      P (last_char pv (firstn (S n) s)) (skipn (S n) s) -> P pv s) ->
  forall pv s, P pv s.
Proof.
  intros Hnil Hcopy Hhit pv s.
  remember (List.length s) as k eqn:Ek.
  revert pv s Ek. induction k as [k IH] using lt_wf_ind; intros pv s Ek.
  destruct s as [|c s]; [apply Hnil|].
  destruct (m pv (c :: s)) as [[|n]|] eqn:E.
  - apply Hcopy; [congruence|]. eapply IH; [|reflexivity]. subst; simpl; lia.
  - eapply Hhit; eauto; [discriminate|].
    eapply IH; [|reflexivity]. subst k. rewrite length_skipn. simpl; lia.
  - apply Hcopy; [congruence|]. eapply IH; [|reflexivity]. subst; simpl; lia.
Qed.

(** ** A text that no match touches survives the scan *)

Section Keeps.
Variable L : str -> Prop.
Variable x : str.
Hypothesis Hm : matches_in m L.
Hypothesis Hx : x <> [].
Hypothesis HL : forall w, L w -> apart w x /\ w <> x.

Lemma no_match_inside (pv : option ascii) (x1 x2 b : str) (n : nat) :
  x = x1 ++ x2 -> x2 <> [] -> m pv (x2 ++ b) <> Some (S n).
Proof.
  intros Ex Hn E. destruct (Hm _ _ _ E) as [Hlen Hw].
  destruct (HL _ Hw) as [Ha Hne].
  assert (Hq : x1 ++ firstn (S n) (x2 ++ b) ++ skipn (S n) (x2 ++ b)
               = [] ++ x ++ b).
  { rewrite firstn_skipn, Ex, <- app_assoc. reflexivity. }
  destruct (Ha _ _ _ _ Hq) as [H|[H|[_ H]]].
  - rewrite length_firstn in H.
    change (List.length (@nil ascii)) with 0 in H. lia.
  - rewrite Ex, length_app in H. destruct x2; [congruence|].
    simpl in H; lia.
  - congruence.
Qed.

Lemma scan_inside (pv : option ascii) (x1 x2 b : str) (st : St) :
  x = x1 ++ x2 ->
  scan 0 pv (x2 ++ b) st =
    (x2 ++ fst (scan 0 (last_char pv x2) b st),
     snd (scan 0 (last_char pv x2) b st)).
Proof.
  revert pv x1; induction x2 as [|c x2 IH]; intros pv x1 Ex.
  - simpl. destruct (sub_scan m repl 0 pv b st); reflexivity.
  - rewrite last_char_cons. change ((c :: x2) ++ b) with (c :: (x2 ++ b)).
    rewrite scan_copy.
    + rewrite (IH (Some c) (x1 ++ [c])).
      * reflexivity.
      * rewrite <- app_assoc. exact Ex.
    + intros n. apply (no_match_inside pv x1 (c :: x2) b n Ex). discriminate.
Qed.

Lemma match_before (pv : option ascii) (a b : str) (n : nat) :
  m pv (a ++ x ++ b) = Some (S n) -> S n <= List.length a.
Proof.
  intros E. destruct (Hm _ _ _ E) as [Hlen Hw].
  destruct (HL _ Hw) as [Ha Hne].
  assert (Hq : [] ++ firstn (S n) (a ++ x ++ b)
                  ++ skipn (S n) (a ++ x ++ b) = a ++ x ++ b).
  { rewrite firstn_skipn. reflexivity. }
  destruct (Ha _ _ _ _ Hq) as [H|[H|[_ H]]].
  - rewrite length_firstn in H.
    change (List.length (@nil ascii)) with 0 in H. lia.
  - destruct x; [congruence|]. simpl in H; lia.
  - congruence.
Qed.

Lemma scan_keeps (pv : option ascii) (s : str) (st : St) :
  occurs x s -> occurs x (fst (scan 0 pv s st)).
Proof.
  intros (a & b & E). revert st a b E.
  pattern pv, s. apply scan_ind; clear pv s.
  - intros pv st a b E. destruct a, x; simpl in E; congruence.
  - intros pv c s Hno IH st a b E.
    destruct a as [|c0 a].
    + simpl in E. rewrite E, (scan_inside pv [] x b st eq_refl).
      apply (occurs_here x []).
    + simpl in E. injection E as -> ->.
      rewrite scan_copy by exact Hno. simpl.
      apply occurs_cons. eapply IH; reflexivity.
  - intros pv s n Hs Em IH st a b E. subst s.
    pose proof (match_before _ _ _ _ Em) as Hle.
    rewrite (scan_hit pv _ st n Hs Em). simpl fst.
    apply occurs_app_l. eapply IH.
    rewrite skipn_app. replace (S n - List.length a) with 0 by lia.
    reflexivity.
Qed.
End Keeps.
End Scan.

(** * Counting occurrences around a block *)

Lemma starts_with_ext (x p r : str) :
  starts_with x p = true -> starts_with x (p ++ r) = true.
Proof.
  intros H; apply starts_with_true in H as [w ->].
  apply starts_with_true. exists (w ++ r). rewrite app_assoc. reflexivity.
Qed.

Lemma starts_with_fits (x p r : str) :
  starts_with x (p ++ r) = true -> List.length x <= List.length p ->
  starts_with x p = true.
Proof.
  intros H Hl; apply starts_with_true in H as [w E].
  apply starts_with_true.
  apply app_eq_app in E as [l [[-> _]|[-> E]]].
  - eauto.
  - rewrite length_app in Hl. destruct l; [|simpl in Hl; lia].
    exists []. rewrite !app_nil_r. reflexivity.
Qed.

Lemma count_nil (x : str) : x <> [] -> count x [] = 0.
Proof. destruct x; [congruence|reflexivity]. Qed.

Section Block.
Variables u x : str.
Hypothesis Ha : apart u x.
Hypothesis Hx : x <> [].

Lemma count_inside (q u1 u2 : str) :
  u = u1 ++ u2 -> (u1 = [] -> u <> x) -> count x (u2 ++ q) = count x q.
Proof.
  revert u1; induction u2 as [|c u2 IH]; intros u1 E Hne; [reflexivity|].
  change ((c :: u2) ++ q) with (c :: (u2 ++ q)). cbn [count].
  rewrite (IH (u1 ++ [c])).
  - destruct (starts_with x (c :: u2 ++ q)) eqn:S; [|reflexivity].
    exfalso. apply starts_with_true in S as [r S].
    assert (Hq : [] ++ u ++ q = u1 ++ x ++ r).
    { simpl. rewrite E, <- app_assoc. f_equal. exact S. }
    destruct (Ha _ _ _ _ Hq) as [H|[H|[H1 H2]]].
    + rewrite E, length_app in H. simpl in H. lia.
    + destruct x; [congruence|]. simpl in H. lia.
    + exact (Hne (eq_sym H1) H2).
  - rewrite <- app_assoc. exact E.
  - intros H. destruct u1; discriminate.
Qed.

Lemma count_before (p q : str) :
  count x (p ++ u ++ q) = count x p + count x (u ++ q).
Proof.
  induction p as [|c p IH].
  - rewrite count_nil by assumption. reflexivity.
  - change ((c :: p) ++ u ++ q) with (c :: (p ++ u ++ q)). cbn [count].
    rewrite IH.
    assert (starts_with x (c :: p ++ u ++ q) = starts_with x (c :: p)) as ->;
      [|lia].
    destruct (starts_with x (c :: p)) eqn:S.
    + apply (starts_with_ext _ _ (u ++ q)) in S. exact S.
    + destruct (starts_with x (c :: p ++ u ++ q)) eqn:S2; [|reflexivity].
      rewrite <- S. symmetry.
      apply (starts_with_fits _ _ (u ++ q)); [exact S2|].
      apply starts_with_true in S2 as [r S2].
      assert (Hq : (c :: p) ++ u ++ q = [] ++ x ++ r) by exact S2.
      destruct (Ha _ _ _ _ Hq) as [H|[H|[H1 H2]]].
      * simpl in H; lia.
      * exact H.
      * discriminate.
Qed.

Lemma count_block (p q : str) :
  u <> x -> count x (p ++ u ++ q) = count x p + count x q.
Proof.
  intros Hne. rewrite count_before. f_equal.
  apply (count_inside q [] u); auto.
Qed.

Lemma occurs_block (p q : str) :
  u <> x -> occurs x (p ++ u ++ q) -> occurs x p \/ occurs x q.
Proof.
  intros Hne H. apply count_pos_occurs in H.
  rewrite count_block in H by assumption.
  rewrite <- !count_pos_occurs. lia.
Qed.
End Block.

Lemma count_block_same (x p q : str) :
  apart x x -> x <> [] -> count x (p ++ x ++ q) = count x p + 1 + count x q.
Proof.
  intros Ha Hx. rewrite (count_before x x Ha Hx).
  destruct x as [|c x']; [congruence|].
  change ((c :: x') ++ q) with (c :: (x' ++ q)). cbn [count].
  change (c :: x' ++ q) with ((c :: x') ++ q). rewrite starts_with_app.
  rewrite (count_inside _ _ Ha Hx q [c] x'); [lia|reflexivity|discriminate].
Qed.

(** * Scans that leave the count of a text alone *)

Section ScanCount.
Variable St : Type.
Variable m : matcher.
Variable repl : St -> str -> St * str.
Variable L : str -> Prop.
Variable x : str.
Hypothesis Hm : matches_in m L.
Hypothesis Hx : x <> [].
Hypothesis HL : forall w, L w -> apart w x /\ w <> x.
Hypothesis HE : forall st w, L w ->
  apart (snd (repl st w)) x /\ snd (repl st w) <> x /\ snd (repl st w) <> [].

Lemma scan_count (pv : option ascii) (s : str) (st : St) (p : str) :
  count x (p ++ fst (sub_scan m repl 0 pv s st)) = count x (p ++ s).
Proof.
  revert st p. pattern pv, s. apply (scan_ind m); clear pv s.
  - reflexivity.
  - intros pv c s Hno IH st p. rewrite scan_copy by exact Hno. simpl fst.
    change (p ++ c :: ?t) with (p ++ [c] ++ t). rewrite !app_assoc. apply IH.
  - intros pv s n Hs Em IH st p.
    rewrite (scan_hit _ m repl pv s st n Hs Em). simpl fst.
    destruct (Hm _ _ _ Em) as [Hlen Hw].
    destruct (HL _ Hw) as [Ha Hne].
    destruct (HE st _ Hw) as (Hea & Hene & He0).
    rewrite app_assoc, IH, <- app_assoc.
    rewrite (count_block _ _ Hea Hx _ _ Hene).
    transitivity (count x (p ++ firstn (S n) s ++ skipn (S n) s)).
    2: { rewrite firstn_skipn; reflexivity. }
    rewrite (count_block _ _ Ha Hx); [reflexivity|exact Hne].
Qed.
End ScanCount.

(** * [str.replace] *)

Lemma lit_matcher_matches (old : str) :
  matches_in (lit_matcher old) (fun w => w = old).
Proof.
  intros pv s n E. unfold lit_matcher in E.
  destruct (starts_with old s) eqn:S; [|discriminate].
  injection E as E. apply starts_with_true in S as [r ->].
  rewrite <- E. split.
  - rewrite length_app; lia.
  - rewrite firstn_app, Nat.sub_diag, firstn_all. simpl. apply app_nil_r.
Qed.

Lemma re_sub_scan1 (m : matcher) (new s : str) : re_sub m new s = scan1 m new None s.
Proof. reflexivity. Qed.

Lemma scan1_copy (m : matcher) (new : str) pv c s :
  (forall n, m pv (c :: s) <> Some (S n)) ->
  scan1 m new pv (c :: s) = c :: scan1 m new (Some c) s.
Proof.
  intros H. unfold scan1. rewrite scan_copy by exact H. reflexivity.
Qed.

Lemma scan1_hit (m : matcher) (new : str) pv s n :
  s <> [] -> m pv s = Some (S n) ->
  scan1 m new pv s =
    new ++ scan1 m new (last_char pv (firstn (S n) s)) (skipn (S n) s).
Proof.
  intros Hs E. unfold scan1.
  rewrite (scan_hit _ m _ pv s tt n Hs E). reflexivity.
Qed.

Lemma lit_matcher_hit (old : str) pv r :
  old <> [] ->
  exists n, lit_matcher old pv (old ++ r) = Some (S n) /\ S n = List.length old.
Proof.
  intros H. unfold lit_matcher. rewrite starts_with_app.
  destruct old; [congruence|]. simpl. eauto.
Qed.

Lemma lit_matcher_miss (old : str) pv s n :
  starts_with old s = false -> lit_matcher old pv s <> Some (S n).
Proof. unfold lit_matcher; intros ->; discriminate. Qed.

Lemma scan1_lit_none (old new : str) pv s :
  ~ occurs old s -> scan1 (lit_matcher old) new pv s = s.
Proof.
  revert pv; induction s as [|c s IH]; intros pv H; [reflexivity|].
  rewrite scan1_copy.
  - f_equal. apply IH. intros O; apply H, occurs_cons, O.
  - intros n. apply lit_matcher_miss.
    destruct (starts_with old (c :: s)) eqn:S; [|reflexivity].
    exfalso; apply H. apply starts_with_true in S as [r ->].
    apply (occurs_here old []).
Qed.

Lemma scan1_lit_here (old new : str) pv r :
  old <> [] ->
  scan1 (lit_matcher old) new pv (old ++ r) =
    new ++ scan1 (lit_matcher old) new (last_char pv old) r.
Proof.
  intros H. destruct (lit_matcher_hit old pv r H) as (n & E & En).
  rewrite (scan1_hit _ _ pv _ n); [|destruct old; [congruence|discriminate]|exact E].
  rewrite En, firstn_app, skipn_app, Nat.sub_diag, firstn_all, skipn_all.
  simpl. rewrite app_nil_r. reflexivity.
Qed.

Lemma replace_none (old new s : str) : ~ occurs old s -> replace old new s = s.
Proof. apply scan1_lit_none. Qed.

Lemma scan1_lit_unique (x o : str) pv p q :
  apart x x -> x <> [] -> ~ occurs x p -> ~ occurs x q ->
  scan1 (lit_matcher x) o pv (p ++ x ++ q) = p ++ o ++ q.
Proof.
  intros Ha Hx Hp Hq. revert pv; induction p as [|c p IH]; intros pv.
  - simpl. rewrite scan1_lit_here by assumption.
    rewrite scan1_lit_none by assumption. reflexivity.
  - change ((c :: p) ++ x ++ q) with (c :: (p ++ x ++ q)).
    rewrite scan1_copy.
    + simpl. f_equal. apply IH. intros O; apply Hp, occurs_cons, O.
    + intros n. apply lit_matcher_miss.
      destruct (starts_with x (c :: p ++ x ++ q)) eqn:S; [|reflexivity].
      exfalso. pose proof S as S'. apply starts_with_true in S' as [r E].
      assert (Hq' : [] ++ x ++ r = (c :: p) ++ x ++ q) by (symmetry; exact E).
      destruct (Ha _ _ _ _ Hq') as [H|[H|[H _]]].
      * apply Hp. simpl in H.
        apply (starts_with_fits x (c :: p) (x ++ q)) in S; [|exact H].
        apply starts_with_true in S as [w ->]. apply (occurs_here x []).
      * simpl in H; lia.
      * discriminate.
Qed.

Lemma replace_unique (x o p q : str) :
  apart x x -> x <> [] -> ~ occurs x p -> ~ occurs x q ->
  replace x o (p ++ x ++ q) = p ++ o ++ q.
Proof. apply scan1_lit_unique. Qed.

Lemma scan1_lit_occurs (old new : str) pv t :
  old <> [] -> occurs old t -> occurs new (scan1 (lit_matcher old) new pv t).
Proof.
  intros Ho (a & b & ->). revert pv; induction a as [|c a IH]; intros pv.
  - simpl. rewrite scan1_lit_here by assumption. apply (occurs_here new []).
  - change ((c :: a) ++ old ++ b) with (c :: (a ++ old ++ b)).
    destruct (lit_matcher old pv (c :: a ++ old ++ b)) as [[|n]|] eqn:E.
    + rewrite scan1_copy by congruence. apply occurs_cons, IH.
    + rewrite (scan1_hit _ _ pv _ n); [|discriminate|exact E].
      apply (occurs_here new []).
    + rewrite scan1_copy by congruence. apply occurs_cons, IH.
Qed.

(** * What a regular expression can match *)

Lemma clang_lang (r : regex) : forall w cs, clang r w cs -> lang r w.
Proof.
  induction r as [l|p|p|p|r IH|r1 IH1 r2 IH2|c| | | | |r IH];
    simpl; intros w cs H.
  - apply H.
  - apply H.
  - apply H.
  - apply H.
  - destruct H as [H|H]; [left; apply H|right; eauto].
  - destruct H as (u & v & c1 & c2 & -> & _ & H1 & H2).
    exists u, v. eauto.
  - apply H.
  - apply H.
  - apply H.
  - apply H.
  - apply H.
  - destruct H as (c1 & H & _). eauto.
Qed.

Lemma runs_nil (A : Type) (r : regex) st s (k : mstate -> str -> option A) x :
  clang r [] [] -> k st s = Some x -> runs r st s k x.
Proof.
  intros H E. exists [], s, []. split; [reflexivity|]. split; [exact H|].
  destruct st as [pv n cs]. simpl. rewrite Nat.add_0_r, app_nil_r. exact E.
Qed.

Lemma star_sound (A : Type) (p : ascii -> bool) (s : str) :
  forall (st : mstate) (k : mstate -> str -> option A) (x : A),
    star p st s k = Some x -> runs (Star p) st s k x.
Proof.
  induction s as [|c s IH]; intros st k x H; simpl in H.
  - apply runs_nil; [split; reflexivity|exact H].
  - assert (Hstop : k st (c :: s) = Some x -> runs (Star p) st (c :: s) k x).
    { intros E. apply runs_nil; [split; reflexivity|exact E]. }
    destruct (p c) eqn:Pc; [|auto].
    destruct (star p _ s k) eqn:E; [|auto].
    injection H as ->.
    apply IH in E as (w & rest & cs & -> & [Hw ->] & Hk).
    exists (c :: w), rest, []. cbn [prev pos caps] in Hk.
    split; [reflexivity|]. split; [split; [simpl; rewrite Pc; exact Hw|reflexivity]|].
    rewrite last_char_cons.
    replace (pos st + List.length (c :: w)) with (S (pos st) + List.length w)
      by (simpl; lia).
    exact Hk.
Qed.

Lemma rmatch_sound (A : Type) (r : regex) :
  forall (st : mstate) (s : str) (k : mstate -> str -> option A) (x : A),
    rmatch r st s k = Some x -> runs r st s k x.
Proof.
  induction r as [l|p|p|p|r IH|r1 IH1 r2 IH2|c| | | | |r IH];
    intros st s k x H; simpl in H.
  - destruct (strip_prefix l s) as [rest|] eqn:E; [|discriminate].
    apply strip_prefix_Some in E; subst s.
    exists l, rest, []. rewrite app_nil_r. repeat split; auto.
  - destruct s as [|c s]; [discriminate|].
    destruct (p c) eqn:Pc; [|discriminate].
    exists [c], s, []. rewrite app_nil_r.
    split; [reflexivity|]. split; [split; [exists c; auto|reflexivity]|].
    replace (pos st + List.length [c]) with (S (pos st)) by (simpl; lia).
    exact H.
  - apply star_sound; exact H.
  - destruct s as [|c s]; [discriminate|].
    destruct (p c) eqn:Pc; [|discriminate].
    apply star_sound in H as (w & rest & cs & -> & [Hw ->] & Hk).
    exists (c :: w), rest, []. cbn [prev pos caps] in Hk.
    split; [reflexivity|].
    split; [split; [split; [discriminate|simpl; rewrite Pc; exact Hw]|reflexivity]|].
    rewrite last_char_cons.
    replace (pos st + List.length (c :: w)) with (S (pos st) + List.length w)
      by (simpl; lia).
    exact Hk.
  - destruct (rmatch r st s k) eqn:E.
    + injection H as ->.
      apply IH in E as (w & rest & cs & -> & Hw & Hk).
      exists w, rest, cs. simpl. auto.
    + apply runs_nil; [left; split; reflexivity|exact H].
  - apply IH1 in H as (u & rest & c1 & -> & Hu & H).
    apply IH2 in H as (v & rest' & c2 & -> & Hv & H).
    cbn [prev pos caps] in H.
    exists (u ++ v), rest', (c1 ++ c2).
    rewrite <- app_assoc, length_app, last_char_app.
    split; [reflexivity|]. split; [exists u, v, c1, c2; auto|].
    rewrite Nat.add_assoc, app_assoc. exact H.
  - apply runs_nil; [split; reflexivity|].
    destruct s as [|c' s]; [auto|].
    destruct (Ascii.eqb c c'); [discriminate|auto].
  - apply runs_nil; [split; reflexivity|].
    destruct (xorb _ _); [auto|discriminate].
  - apply runs_nil; [split; reflexivity|].
    destruct (prev st); [discriminate|auto].
  - apply runs_nil; [split; reflexivity|].
    destruct (prev st) as [c|]; [|auto].
    destruct (Ascii.eqb c nl); [auto|discriminate].
  - apply runs_nil; [split; reflexivity|].
    destruct s as [|c [|d s]]; auto; [|discriminate].
    destruct (Ascii.eqb c nl); [auto|discriminate].
  - apply IH in H as (w & rest & cs & -> & Hw & Hk).
    cbn [prev pos caps] in Hk.
    exists w, rest, (cs ++ [w]).
    split; [reflexivity|]. split; [exists cs; auto|].
    rewrite app_assoc.
    replace (pos st + List.length w - pos st) with (List.length w) in Hk by lia.
    rewrite firstn_app, Nat.sub_diag, firstn_all in Hk. simpl in Hk.
    rewrite app_nil_r in Hk. exact Hk.
Qed.

(** [re.match]: the line is a word of the pattern followed by a rest, and
    the result is the list of the groups. *)
Lemma re_match_sound (r : regex) (s : str) (cs : list str) :
  re_match r s = Some cs -> exists w rest, s = w ++ rest /\ clang r w cs.
Proof.
  unfold re_match; intros H.
  apply rmatch_sound in H as (w & rest & cs' & -> & Hw & Hk).
  simpl in Hk. injection Hk as <-. eauto.
Qed.

Lemma re_matcher_sound (r : regex) (pv : option ascii) (s : str) (n : nat) :
  re_matcher r pv s = Some n ->
  exists w rest, s = w ++ rest /\ lang r w /\ n = List.length w.
Proof.
  unfold re_matcher; intros H.
  apply rmatch_sound in H as (w & rest & cs & -> & Hw & Hk).
  injection Hk as <-. apply clang_lang in Hw. eauto.
Qed.

Lemma re_matcher_matches (r : regex) : matches_in (re_matcher r) (lang r).
Proof.
  intros pv s n H.
  apply re_matcher_sound in H as (w & rest & -> & Hw & E).
  rewrite E, length_app, firstn_app, Nat.sub_diag, firstn_all. simpl.
  rewrite app_nil_r. split; [lia|exact Hw].
Qed.

(** ** Patterns that can only match clean words *)

Lemma class_no_angle (p : ascii -> bool) (w : str) :
  negb (p lt_c) && negb (p gt_c) = true -> forallb p w = true ->
  forallb (fun c => negb (angle c)) w = true.
Proof.
  intros H. apply andb_true_iff in H as [H1 H2].
  apply negb_true_iff in H1, H2.
  apply forallb_impl. intros c Pc. unfold angle.
  destruct (Ascii.eqb c lt_c) eqn:E1.
  { apply Ascii.eqb_eq in E1; subst c; congruence. }
  destruct (Ascii.eqb c gt_c) eqn:E2.
  { apply Ascii.eqb_eq in E2; subst c; congruence. }
  reflexivity.
Qed.

Lemma lang_no_angle (r : regex) :
  no_angle_re r = true ->
  forall w, lang r w -> forallb (fun c => negb (angle c)) w = true.
Proof.
  induction r as [l|p|p|p|r IH|r1 IH1 r2 IH2|c| | | | |r IH];
    simpl; intros H w Hw; subst; auto.
  - destruct Hw as (c & -> & Pc). eapply class_no_angle; eauto.
    simpl. rewrite Pc. reflexivity.
  - eapply class_no_angle; eauto.
  - destruct Hw as [_ Hw]. eapply class_no_angle; eauto.
  - destruct Hw as [->|Hw]; auto.
  - apply andb_true_iff in H as [H1 H2].
    destruct Hw as (u & v & -> & Hu & Hv).
    rewrite forallb_app, (IH1 H1 u Hu), (IH2 H2 v Hv). reflexivity.
Qed.

Lemma lang_anchored (r : regex) :
  anchored r = true ->
  forall w, lang r w -> existsb (fun c => negb (sent_char c)) w = true.
Proof.
  induction r as [l|p|p|p|r IH|r1 IH1 r2 IH2|c| | | | |r IH];
    simpl; intros H w Hw; subst; auto; try discriminate.
  destruct Hw as (u & v & -> & Hu & Hv). rewrite existsb_app.
  apply orb_true_iff in H as [H|H]; apply orb_true_iff; eauto.
Qed.

Lemma lang_clean (r : regex) (w : str) :
  clean_re r = true -> lang r w -> clean w = true.
Proof.
  unfold clean_re, clean; intros H Hw. apply andb_true_iff in H as [H1 H2].
  rewrite (lang_no_angle r H1 w Hw), (lang_anchored r H2 w Hw). reflexivity.
Qed.

Lemma matches_in_weaken (m : matcher) (L L' : str -> Prop) :
  (forall w, L w -> L' w) -> matches_in m L -> matches_in m L'.
Proof.
  intros H Hm pv s n E. destruct (Hm pv s n E); auto.
Qed.

Lemma re_matcher_clean (r : regex) :
  clean_re r = true -> matches_in (re_matcher r) is_clean.
Proof.
  intros H. eapply matches_in_weaken; [|apply re_matcher_matches].
  intros w; apply lang_clean; exact H.
Qed.

Lemma lit_matcher_clean (old : str) :
  clean old = true -> matches_in (lit_matcher old) is_clean.
Proof.
  intros H. eapply matches_in_weaken; [|apply lit_matcher_matches].
  intros w ->; exact H.
Qed.

Lemma protected_patterns_clean :
  forallb clean_re PROTECTED_PATTERNS = true.
Proof. vm_compute. reflexivity. Qed.

(** * The matches of a scan, in order *)

Section Find.
Variable m : matcher.

Lemma find_skip (k : nat) (pv : option ascii) (s : str) :
  find_scan m k pv s = find_scan m 0 (last_char pv (firstn k s)) (skipn k s).
Proof.
  revert k pv; induction s as [|c s IH]; intros k pv.
  - destruct k; reflexivity.
  - destruct k as [|k]; [reflexivity|].
    simpl find_scan at 1. rewrite IH.
    rewrite firstn_cons, skipn_cons, last_char_cons. reflexivity.
Qed.

Lemma find_copy (pv : option ascii) (c : ascii) (s : str) :
  (forall n, m pv (c :: s) <> Some (S n)) ->
  find_scan m 0 pv (c :: s) = find_scan m 0 (Some c) s.
Proof.
  intros H. simpl.
  destruct (m pv (c :: s)) as [[|n]|] eqn:E; try reflexivity.
  exfalso; eapply H; eauto.
Qed.

Lemma find_hit (pv : option ascii) (s : str) (n : nat) :
  s <> [] -> m pv s = Some (S n) ->
  find_scan m 0 pv s =
    firstn (S n) s ::
    find_scan m 0 (last_char pv (firstn (S n) s)) (skipn (S n) s).
Proof.
  intros Hs E. destruct s as [|c s]; [congruence|].
  cbn [find_scan]. rewrite E. rewrite find_skip.
  rewrite firstn_cons, last_char_cons, skipn_cons. reflexivity.
Qed.

Lemma find_in (L : str -> Prop) (pv : option ascii) (s : str) :
  matches_in m L -> Forall L (find_scan m 0 pv s).
Proof.
  intros Hm. pattern pv, s. apply (scan_ind m); clear pv s.
  - constructor.
  - intros pv c s Hno IH. rewrite find_copy by exact Hno. exact IH.
  - intros pv s n Hs Em IH. rewrite (find_hit pv s n Hs Em).
    constructor; [|exact IH]. apply (Hm _ _ _ Em).
Qed.
End Find.

(** * Protection *)

Lemma upto_cons n w ws : upto (N.succ n) ws = upto n (w :: ws).
Proof. unfold upto. simpl List.length. lia. Qed.

Lemma number_app n ws1 ws2 :
  number n (ws1 ++ ws2) = number n ws1 ++ number (upto n ws1) ws2.
Proof.
  revert n; induction ws1 as [|w ws1 IH]; intros n; simpl.
  - unfold upto; simpl. rewrite N.add_0_r. reflexivity.
  - rewrite IH, (upto_cons n w). reflexivity.
Qed.

Lemma restore_app t (a b : list (str * str)) :
  restore t (a ++ b) = restore (restore t b) a.
Proof. unfold restore. rewrite rev_app_distr, fold_left_app. reflexivity. Qed.

Lemma restore_cons t e (a : list (str * str)) :
  restore t (e :: a) = restore_step (restore t a) e.
Proof.
  unfold restore. simpl. rewrite fold_left_app. reflexivity.
Qed.

Lemma within_split n ws w k :
  within n (upto n (w :: ws)) k =
  (if N.eqb k n then 1 else 0) + within (N.succ n) (upto (N.succ n) ws) k.
Proof.
  rewrite (upto_cons n w ws). unfold within, upto. simpl List.length.
  destruct (N.eqb_spec k n); destruct (N.leb_spec n k);
    destruct (N.ltb_spec k (n + N.of_nat (S (List.length ws))));
    destruct (N.leb_spec (N.succ n) k); simpl; lia.
Qed.

Section Pass.
Variable m : matcher.
Hypothesis Hm : matches_in m is_clean.

Local Abbreviation pass := (sub_scan m replacer 0).
Local Abbreviation found := (find_scan m 0).

Lemma found_clean pv s : Forall is_clean (found pv s).
Proof. apply find_in; exact Hm. Qed.

(** The counter and the restorations after a pass. *)
Lemma pass_state pv s n rs :
  snd (pass pv s (n, rs)) = (upto n (found pv s), rs ++ number n (found pv s)).
Proof.
  revert n rs. pattern pv, s. apply (scan_ind m); clear pv s.
  - intros pv n rs. unfold upto. simpl. rewrite N.add_0_r, app_nil_r.
    reflexivity.
  - intros pv c s Hno IH n rs.
    rewrite scan_copy, find_copy by exact Hno. simpl. apply IH.
  - intros pv s k Hs Em IH n rs.
    rewrite (scan_hit _ m replacer pv s (n, rs) k Hs Em).
    rewrite (find_hit m pv s k Hs Em). cbn [snd fst replacer].
    rewrite IH, <- upto_cons, <- app_assoc. reflexivity.
Qed.

Lemma sentinel_vs_clean w k :
  is_clean w -> apart w (sentinel k) /\ w <> sentinel k.
Proof.
  intros H. split.
  - apply apart_clean_sent; [exact H|apply sentinel_sent_like].
  - apply clean_sent_neq; [exact H|apply sentinel_sent_like].
Qed.

(** How a pass changes the number of occurrences of each sentinel. *)
Lemma pass_count pv s n rs p k :
  count (sentinel k) (p ++ fst (pass pv s (n, rs))) =
  count (sentinel k) (p ++ s) + within n (upto n (found pv s)) k.
Proof.
  revert n rs p. pattern pv, s. apply (scan_ind m); clear pv s.
  - intros pv n rs p. unfold within, upto. simpl.
    rewrite N.add_0_r.
    destruct (N.leb_spec n k); destruct (N.ltb_spec k n); simpl; lia.
  - intros pv c s Hno IH n rs p.
    rewrite scan_copy, find_copy by exact Hno. simpl fst.
    change (p ++ c :: ?t) with (p ++ [c] ++ t). rewrite !app_assoc. apply IH.
  - intros pv s j Hs Em IH n rs p.
    rewrite (scan_hit _ m replacer pv s (n, rs) j Hs Em).
    rewrite (find_hit m pv s j Hs Em). cbn [snd fst replacer].
    rewrite within_split, app_assoc, IH, <- app_assoc.
    destruct (Hm _ _ _ Em) as [_ Hw].
    destruct (sentinel_vs_clean _ k Hw) as [Ha Hne].
    transitivity (count (sentinel k) (p ++ firstn (S j) s ++ skipn (S j) s)
                  + (if N.eqb k n then 1 else 0)
                  + within (N.succ n) (upto (N.succ n)
                      (found (last_char pv (firstn (S j) s)) (skipn (S j) s))) k);
      [|rewrite firstn_skipn; lia].
    rewrite (count_block _ _ Ha (sentinel_nonempty k) _ _ Hne).
    destruct (N.eqb_spec k n) as [->|Hkn].
    + rewrite (count_block_same _ _ _ (apart_sentinel n n) (sentinel_nonempty n)).
      lia.
    + rewrite (count_block _ _ (apart_sentinel n k) (sentinel_nonempty k)).
      * lia.
      * intros E; apply sentinel_inj in E; congruence.
Qed.

(** Replaying the restorations of a pass, last one first, undoes it. *)
Lemma pass_restore pv s n rs p :
  (forall j, (n <= j)%N -> count (sentinel j) (p ++ s) = 0) ->
  restore (p ++ fst (pass pv s (n, rs))) (number n (found pv s)) = p ++ s.
Proof.
  revert n rs p. pattern pv, s. apply (scan_ind m); clear pv s.
  - intros pv n rs p _. reflexivity.
  - intros pv c s Hno IH n rs p H.
    rewrite scan_copy, find_copy by exact Hno. simpl fst.
    change (p ++ c :: ?t) with (p ++ [c] ++ t). rewrite !app_assoc.
    apply IH. intros j Hj. rewrite <- app_assoc. apply H, Hj.
  - intros pv s j Hs Em IH n rs p H.
    rewrite (scan_hit _ m replacer pv s (n, rs) j Hs Em).
    rewrite (find_hit m pv s j Hs Em). cbn [snd fst replacer number].
    rewrite restore_cons, app_assoc.
    destruct (Hm _ _ _ Em) as [_ Hw].
    assert (Hsplit : forall i,
      count (sentinel i) (p ++ s) =
      count (sentinel i) p + count (sentinel i) (skipn (S j) s)).
    { intros i. destruct (sentinel_vs_clean _ i Hw) as [Ha Hne].
      rewrite <- (firstn_skipn (S j) s) at 1.
      apply (count_block _ _ Ha (sentinel_nonempty i) _ _ Hne). }
    rewrite IH.
    + rewrite <- app_assoc. unfold restore_step.
      rewrite replace_unique.
      * rewrite firstn_skipn. reflexivity.
      * apply apart_sentinel.
      * apply sentinel_nonempty.
      * apply count_zero_not_occurs.
        pose proof (H n (N.le_refl n)) as H0. rewrite Hsplit in H0. lia.
      * apply count_zero_not_occurs.
        pose proof (H n (N.le_refl n)) as H0. rewrite Hsplit in H0. lia.
    + intros i Hi. rewrite <- app_assoc.
      rewrite (count_block _ _ (apart_sentinel n i) (sentinel_nonempty i)).
      * assert (Hle : (n <= i)%N) by lia.
        pose proof (H i Hle) as H0. rewrite Hsplit in H0. lia.
      * intros E; apply sentinel_inj in E. lia.
Qed.
End Pass.

(** * All the passes of [protect] *)

Lemma upto_app n ws1 ws2 : upto (upto n ws1) ws2 = upto n (ws1 ++ ws2).
Proof. unfold upto. rewrite length_app. lia. Qed.

Lemma within_add n ws1 ws2 k :
  within n (upto n (ws1 ++ ws2)) k =
  within n (upto n ws1) k + within (upto n ws1) (upto (upto n ws1) ws2) k.
Proof.
  rewrite upto_app. unfold within, upto. rewrite length_app.
  destruct (N.leb_spec n k);
    destruct (N.ltb_spec k (n + N.of_nat (List.length ws1 + List.length ws2)));
    destruct (N.ltb_spec k (n + N.of_nat (List.length ws1)));
    destruct (N.leb_spec (n + N.of_nat (List.length ws1)) k); simpl; lia.
Qed.

Lemma within_out n n' k : (n' <= k)%N -> within n n' k = 0.
Proof.
  intros H. unfold within.
  destruct (N.ltb_spec k n'); [lia|]. rewrite andb_false_r. reflexivity.
Qed.

Lemma within_in n n' k : (n <= k < n')%N -> within n n' k = 1.
Proof.
  intros [H1 H2]. unfold within.
  destruct (N.leb_spec n k); [|lia]. destruct (N.ltb_spec k n'); [|lia].
  reflexivity.
Qed.

Lemma within_nil n k : within n (upto n []) k = 0.
Proof.
  unfold within, upto. simpl. rewrite N.add_0_r.
  destruct (N.leb_spec n k); destruct (N.ltb_spec k n); simpl; lia.
Qed.

Lemma protect_rule_eq (r : regex) (c : str) (st : prot_state) :
  protect_rule (c, st) r = sub_scan (re_matcher r) replacer 0 None c st.
Proof. reflexivity. Qed.

Lemma passes_exist (pats : list regex) :
  forallb clean_re pats = true ->
  forall c n rs, exists ws, passes_spec pats c n rs ws.
Proof.
  induction pats as [|r pats IH]; intros Hc c n rs.
  - exists []. split; simpl.
    + unfold upto; simpl. rewrite N.add_0_r, app_nil_r. reflexivity.
    + constructor.
    + intros k. rewrite within_nil. lia.
    + reflexivity.
  - simpl in Hc. apply andb_true_iff in Hc as [Hr Hc].
    pose proof (re_matcher_clean r Hr) as Hm.
    set (ws1 := find_scan (re_matcher r) 0 None c).
    set (c1 := fst (sub_scan (re_matcher r) replacer 0 None c (n, rs))).
    assert (E1 : protect_rule (c, (n, rs)) r
                 = (c1, (upto n ws1, rs ++ number n ws1))).
    { rewrite protect_rule_eq. rewrite (surjective_pairing (sub_scan _ _ _ _ _ _)).
      rewrite (pass_state (re_matcher r)). reflexivity. }
    assert (C1 : forall k, count (sentinel k) c1
                           = count (sentinel k) c + within n (upto n ws1) k).
    { intros k. apply (pass_count _ Hm None c n rs [] k). }
    destruct (IH Hc c1 (upto n ws1) (rs ++ number n ws1)) as [ws2 [S2 F2 K2 R2]].
    exists (ws1 ++ ws2).
    split;
      change (fold_left protect_rule (r :: pats) (c, (n, rs)))
        with (fold_left protect_rule pats (protect_rule (c, (n, rs)) r));
      try rewrite E1.
    + rewrite S2, upto_app, number_app, app_assoc. reflexivity.
    + apply Forall_app; split; [apply (found_clean _ Hm)|exact F2].
    + intros k. rewrite K2, C1, within_add. lia.
    + intros H. rewrite number_app, restore_app, R2.
      * apply (pass_restore _ Hm None c n rs []). exact H.
      * intros j Hj. rewrite C1, H, within_out; [reflexivity|exact Hj|].
        unfold upto in Hj; lia.
Qed.

(** [protect] numbers its matches from zero. *)
Lemma protect_spec (d : str) :
  exists ws,
    snd (protect d) = number 0 ws /\
    passes_spec PROTECTED_PATTERNS d 0 [] ws.
Proof.
  destruct (passes_exist PROTECTED_PATTERNS protected_patterns_clean d 0%N [])
    as [ws H].
  exists ws. split; [|exact H].
  unfold protect, protect_with.
  pose proof (ps_state _ _ _ _ _ H) as E.
  destruct (fold_left protect_rule PROTECTED_PATTERNS (d, (0%N, [])))
    as [c' [n' rs']]. simpl in E. injection E as _ ->. reflexivity.
Qed.

Lemma protect_fst (d : str) :
  fst (protect d) = fst (fold_left protect_rule PROTECTED_PATTERNS (d, (0%N, []))).
Proof.
  unfold protect, protect_with.
  destruct (fold_left protect_rule PROTECTED_PATTERNS (d, (0%N, [])))
    as [c' [n' rs']]. reflexivity.
Qed.

(** Membership in a numbered list. *)
Lemma in_number n ws s o :
  In (s, o) (number n ws) ->
  exists k, (n <= k < upto n ws)%N /\ s = sentinel k /\ In o ws.
Proof.
  revert n; induction ws as [|w ws IH]; intros n H; [contradiction|].
  destruct H as [H|H].
  - injection H as <- <-. exists n. rewrite <- upto_cons.
    unfold upto. repeat split; [lia|lia|left; reflexivity].
  - apply IH in H as (k & Hk & -> & Hin). exists k.
    rewrite (upto_cons n w) in Hk. repeat split; [lia|lia|right; exact Hin].
Qed.

(** * Restoration keeps what it does not replace *)

Lemma replace_keeps (x old new t : str) :
  x <> [] -> apart old x -> old <> x ->
  occurs x t -> occurs x (replace old new t).
Proof.
  intros Hx Ha Hne H.
  apply (scan_keeps _ (lit_matcher old) _ (fun w => w = old) x
           (lit_matcher_matches old) Hx); [|exact H].
  intros w ->; auto.
Qed.

Lemma restore_keeps_clean (w t : str) (ws : list str) :
  is_clean w -> occurs w t -> forall n, occurs w (restore t (number n ws)).
Proof.
  intros Hw H. induction ws as [|w0 ws IH]; intros n; [exact H|].
  cbn [number]. rewrite restore_cons. unfold restore_step.
  apply replace_keeps; [apply clean_nonempty, Hw| | |apply IH].
  - apply apart_sym, apart_clean_sent; [exact Hw|apply sentinel_sent_like].
  - intros E. symmetry in E. revert E.
    apply clean_sent_neq; [exact Hw|apply sentinel_sent_like].
Qed.

Lemma restore_keeps_sentinel (k : N) (t : str) (ws : list str) :
  occurs (sentinel k) t ->
  forall n, (k < n)%N -> occurs (sentinel k) (restore t (number n ws)).
Proof.
  intros H. induction ws as [|w0 ws IH]; intros n Hn; [exact H|].
  cbn [number]. rewrite restore_cons. unfold restore_step.
  apply replace_keeps; [apply sentinel_nonempty|apply apart_sentinel| |].
  - intros E; apply sentinel_inj in E. lia.
  - apply IH. lia.
Qed.

Lemma restore_occurs (ws : list str) :
  Forall is_clean ws ->
  forall n t,
    (forall k, (n <= k < upto n ws)%N -> occurs (sentinel k) t) ->
    forall w, In w ws -> occurs w (restore t (number n ws)).
Proof.
  induction 1 as [|w0 ws Hw0 Hws IH]; intros n t Hocc w Hin; [contradiction|].
  cbn [number]. rewrite restore_cons. unfold restore_step.
  destruct Hin as [<-|Hin].
  - apply scan1_lit_occurs; [apply sentinel_nonempty|].
    apply restore_keeps_sentinel; [|lia].
    apply Hocc. rewrite <- upto_cons. unfold upto. lia.
  - apply replace_keeps.
    + apply clean_nonempty. rewrite Forall_forall in Hws. apply Hws, Hin.
    + apply apart_sym, apart_clean_sent; [|apply sentinel_sent_like].
      rewrite Forall_forall in Hws. apply Hws, Hin.
    + intros E. symmetry in E. revert E.
      apply clean_sent_neq; [|apply sentinel_sent_like].
      rewrite Forall_forall in Hws. apply Hws, Hin.
    + apply IH; [|exact Hin].
      intros k Hk. apply Hocc. rewrite <- upto_cons. lia.
Qed.

(** * The rename steps leave sentinels alone *)

Lemma re_sub_keeps_sentinel (m : matcher) (new t : str) (k : N) :
  matches_in m is_clean ->
  occurs (sentinel k) t -> occurs (sentinel k) (re_sub m new t).
Proof.
  intros Hm H. unfold re_sub.
  apply (scan_keeps _ m _ is_clean (sentinel k) Hm (sentinel_nonempty k));
    [|exact H].
  intros w Hw. apply sentinel_vs_clean, Hw.
Qed.

Lemma run_step_keeps_sentinel (s : step) (t : str) (k : N) :
  step_clean s = true ->
  occurs (sentinel k) t -> occurs (sentinel k) (run_step t s).
Proof.
  destruct s as [old new|r new]; simpl; intros Hc H.
  - apply re_sub_keeps_sentinel; [apply lit_matcher_clean, Hc|exact H].
  - apply re_sub_keeps_sentinel; [apply re_matcher_clean, Hc|exact H].
Qed.

Lemma content_steps_clean : forallb step_clean CONTENT_STEPS = true.
Proof. vm_compute. reflexivity. Qed.

Lemma steps_keep_sentinel (steps : list step) (k : N) :
  forallb step_clean steps = true ->
  forall t, occurs (sentinel k) t ->
            occurs (sentinel k) (fold_left run_step steps t).
Proof.
  induction steps as [|s steps IH]; intros Hc t H; [exact H|].
  simpl in Hc. apply andb_true_iff in Hc as [Hs Hc].
  simpl. apply IH; [exact Hc|]. apply run_step_keeps_sentinel; assumption.
Qed.

Lemma rename_content_keeps_sentinel (t : str) (k : N) :
  occurs (sentinel k) t -> occurs (sentinel k) (rename_content t).
Proof. apply steps_keep_sentinel, content_steps_clean. Qed.

Lemma rename_links_keeps_sentinel (t : str) (k : N) :
  occurs (sentinel k) t -> occurs (sentinel k) (rename_links t).
Proof.
  intros H. unfold rename_links, replace, re_sub_re.
  repeat apply re_sub_keeps_sentinel; try exact H.
  - apply lit_matcher_clean. vm_compute. reflexivity.
  - apply lit_matcher_clean. vm_compute. reflexivity.
  - apply re_matcher_clean. vm_compute. reflexivity.
Qed.

Lemma pipeline_eq (release : bool) (d : str) :
  pipeline release d =
  restore (if negb release then rename_content (rename_links (fst (protect d)))
           else rename_links (fst (protect d)))
          (snd (protect d)).
Proof.
  unfold pipeline. destruct (protect d) as [c rs]. reflexivity.
Qed.

(** ** C2 *)

(** C2 (protection invariant): whatever classification the document has,
    every text that [protect] matched with a rule of [PROTECTED_PATTERNS]
    (every original recorded in its restorations) occurs, unchanged, in the
    output of the protect / rename / restore pass. *)
Theorem protection_invariant (release : bool) (d s o : str) :
  In (s, o) (snd (protect d)) -> occurs o (pipeline release d).
Proof.
  intros Hin. destruct (protect_spec d) as (ws & Ers & Hps).
  rewrite pipeline_eq, Ers. rewrite Ers in Hin.
  apply in_number in Hin as (k & Hk & -> & Hin).
  apply restore_occurs; [exact (ps_clean _ _ _ _ _ Hps)| |exact Hin].
  intros j Hj.
  assert (Hm : occurs (sentinel j) (fst (protect d))).
  { apply count_pos_occurs. rewrite protect_fst.
    rewrite (ps_count _ _ _ _ _ Hps), within_in by exact Hj. lia. }
  destruct (negb release).
  - apply rename_content_keeps_sentinel, rename_links_keeps_sentinel, Hm.
  - apply rename_links_keeps_sentinel, Hm.
Qed.

(** * Running the matcher on a known prefix *)

Lemma rmatch_seq (A : Type) (r1 r2 : regex) st s (k : mstate -> str -> option A) :
  rmatch (Seq r1 r2) st s k = rmatch r1 st s (fun st' rest => rmatch r2 st' rest k).
Proof. reflexivity. Qed.

Lemma rmatch_lit (A : Type) (l r : str) st (k : mstate -> str -> option A) :
  rmatch (Lit l) st (l ++ r) k =
  k (MState (last_char (prev st) l) (pos st + List.length l) (caps st)) r.
Proof. simpl. rewrite strip_prefix_app. reflexivity. Qed.

Lemma rmatch_cls (A : Type) (p : ascii -> bool) c s st
      (k : mstate -> str -> option A) :
  p c = true ->
  rmatch (Cls p) st (c :: s) k = k (MState (Some c) (S (pos st)) (caps st)) s.
Proof. intros H. simpl. rewrite H. reflexivity. Qed.

Lemma star_run (A : Type) (p : ascii -> bool) (ds rest : str)
      (k : mstate -> str -> option A) (x : A) :
  forallb p ds = true -> stops p rest ->
  forall st,
    k (MState (last_char (prev st) ds) (pos st + List.length ds) (caps st)) rest
      = Some x ->
    star p st (ds ++ rest) k = Some x.
Proof.
  intros Hds Hstop. induction ds as [|c ds IH]; intros st Hk.
  - simpl in Hk. rewrite Nat.add_0_r in Hk. destruct st as [pv n cs].
    simpl in *. destruct rest as [|c rest]; [exact Hk|].
    simpl. simpl in Hstop. rewrite Hstop. exact Hk.
  - simpl in Hds. apply andb_true_iff in Hds as [Hc Hds].
    change ((c :: ds) ++ rest) with (c :: (ds ++ rest)). cbn [star].
    rewrite Hc. rewrite (IH Hds); [reflexivity|].
    cbn [prev pos caps]. rewrite last_char_cons in Hk.
    replace (pos st + List.length (c :: ds)) with (S (pos st) + List.length ds)
      in Hk by (simpl; lia).
    exact Hk.
Qed.

(** * Documents free of sentinel-shaped text *)

Lemma zfill4_shape (n : N) :
  exists d1 d2 d3 d4 ds,
    zfill4 (decimal n) = d1 :: d2 :: d3 :: d4 :: ds /\
    forallb is_digit (d1 :: d2 :: d3 :: d4 :: ds) = true.
Proof.
  pose proof (zfill4_digits _ (digits_are_digits (N.to_uint n))) as H.
  fold (decimal n) in H.
  assert (L : 4 <= List.length (zfill4 (decimal n))).
  { unfold zfill4. rewrite length_app, repeat_length. lia. }
  destruct (zfill4 (decimal n)) as [|d1 [|d2 [|d3 [|d4 ds]]]];
    simpl in L; try lia.
  exists d1, d2, d3, d4, ds. auto.
Qed.

Lemma shape_at_sentinel (n : N) (pv : option ascii) (b : str) :
  re_matcher SENTINEL_SHAPE pv (sentinel n ++ b) <> None.
Proof.
  destruct (zfill4_shape n) as (d1 & d2 & d3 & d4 & ds & E & F).
  unfold sentinel. rewrite E. simpl in F.
  repeat (apply andb_true_iff in F as [? F]).
  unfold re_matcher, SENTINEL_SHAPE.
  rewrite <- !app_assoc. rewrite rmatch_seq, rmatch_lit.
  cbn [app].
  rewrite rmatch_seq, rmatch_cls by assumption.
  rewrite rmatch_seq, rmatch_cls by assumption.
  rewrite rmatch_seq, rmatch_cls by assumption.
  rewrite rmatch_seq, rmatch_cls by assumption.
  rewrite rmatch_seq. cbn [rmatch].
  erewrite star_run; [discriminate|exact F|reflexivity|].
  rewrite strip_prefix_app. reflexivity.
Qed.

Lemma search_scan_hit (m : matcher) pv s :
  m pv s <> None -> search_scan m pv s = true.
Proof.
  intros H. destruct s; simpl; destruct (m pv _); congruence.
Qed.

Lemma search_occurs_sentinel (n : N) (d : str) :
  occurs (sentinel n) d -> sentinel_shaped d = true.
Proof.
  intros (a & b & ->). unfold sentinel_shaped, re_search.
  generalize (@None ascii) as pv.
  induction a as [|c a IH]; intros pv.
  - apply search_scan_hit, shape_at_sentinel.
  - simpl. destruct (re_matcher SENTINEL_SHAPE pv _); [reflexivity|]. apply IH.
Qed.

Lemma shape_free (d : str) :
  sentinel_shaped d = false -> forall n, count (sentinel n) d = 0.
Proof.
  intros H n. apply count_zero_not_occurs. intros O.
  apply search_occurs_sentinel in O. congruence.
Qed.

(** ** C1 *)

(** C1, counterexample: a document that already holds the text of the
    first sentinel does not survive protect-then-restore: the literal
    sentinel is restored as if it were a protected match. *)
Lemma roundtrip_fails_on_sentinel_text :
  let d := lit "<<PROT_0000>> cdktf.json" in
  restore (fst (protect d)) (snd (protect d)) = lit "cdktf.json cdktf.json" /\
  restore (fst (protect d)) (snd (protect d)) <> d.
Proof.
  vm_compute. split; [reflexivity|discriminate].
Qed.

(** C1, amended (round-trip identity): for every document in which no text
    of the shape of a sentinel occurs, restoring right after protecting
    returns the document unchanged. *)
Theorem roundtrip_identity (d : str) :
  sentinel_shaped d = false ->
  restore (fst (protect d)) (snd (protect d)) = d.
Proof.
  intros H. destruct (protect_spec d) as (ws & Ers & Hps).
  rewrite Ers, protect_fst. apply (ps_restore _ _ _ _ _ Hps).
  intros j _. apply shape_free, H.
Qed.

Lemma roundtrip_identity_witness :
  let d := lit "Set CDKTF_HOME in cdktf.json, see ~/.cdktf <<PROT_12>>" in
  sentinel_shaped d = false /\
  restore (fst (protect d)) (snd (protect d)) = d.
Proof.
  cbv zeta. split; [vm_compute; reflexivity|].
  apply roundtrip_identity. vm_compute. reflexivity.
Defined.

(** * Replacements that commute *)

Lemma scan1_lit_block (y b x : str) pv r :
  x <> [] -> apart y x -> y <> x ->
  scan1 (lit_matcher y) b pv (x ++ r) =
    x ++ scan1 (lit_matcher y) b (last_char pv x) r.
Proof.
  intros Hx Ha Hne. unfold scan1.
  rewrite (scan_inside _ (lit_matcher y) _ (fun w => w = y) x
             (lit_matcher_matches y)) with (x1 := []); [reflexivity| |reflexivity].
  intros w ->; auto.
Qed.

(** A text that starts the output of a scan started the input, when the
    replacement is apart from it. *)
Lemma scan1_lit_prefix (y b x : str) :
  x <> [] -> b <> [] -> apart b x -> b <> x ->
  forall pv r P,
    starts_with x (P ++ scan1 (lit_matcher y) b pv r) = true ->
    starts_with x (P ++ r) = true.
Proof.
  intros Hx Hb Ha Hne pv r. pattern pv, r.
  apply (scan_ind (lit_matcher y)); clear pv r.
  - auto.
  - intros pv c s Hno IH P H. rewrite scan1_copy in H by exact Hno.
    change (P ++ c :: ?t) with (P ++ [c] ++ t) in *.
    rewrite app_assoc in *. apply IH, H.
  - intros pv s n Hs Em _ P H.
    rewrite (scan1_hit _ _ pv s n Hs Em) in H.
    apply starts_with_ext. pose proof H as H'.
    apply starts_with_true in H' as [w E].
    assert (Hq : P ++ b ++ scan1 (lit_matcher y) b
                   (last_char pv (firstn (S n) s)) (skipn (S n) s)
                 = [] ++ x ++ w) by exact E.
    destruct (Ha _ _ _ _ Hq) as [H1|[H1|[H1 H2]]].
    + destruct b; [congruence|]. simpl in H1; lia.
    + eapply starts_with_fits; eauto.
    + congruence.
Qed.

Section Commute.
Variables x y a b : str.
Hypothesis Hx : x <> [].
Hypothesis Hy : y <> [].
Hypothesis Ha : a <> [].
Hypothesis Hb : b <> [].
Hypothesis Hxy : apart x y.
Hypothesis Nxy : x <> y.
Hypothesis Hya : apart y a.
Hypothesis Nya : y <> a.
Hypothesis Hxb : apart x b.
Hypothesis Nxb : x <> b.

Local Abbreviation Rx := (scan1 (lit_matcher x) a).
Local Abbreviation Ry := (scan1 (lit_matcher y) b).

Lemma scan1_lit_comm (t : str) :
  forall p1 p2 p3 p4, Rx p1 (Ry p2 t) = Ry p3 (Rx p4 t).
Proof.
  remember (List.length t) as k eqn:Ek. revert t Ek.
  induction k as [k IH] using lt_wf_ind; intros t Ek p1 p2 p3 p4.
  destruct t as [|c r]; [reflexivity|].
  destruct (starts_with x (c :: r)) eqn:Sx.
  - apply starts_with_true in Sx as [r' E]. rewrite E.
    rewrite (scan1_lit_block y b x p2 r' Hx (apart_sym _ _ Hxy)) by congruence.
    rewrite !scan1_lit_here by assumption.
    rewrite (scan1_lit_block y b a p3 _ Ha Hya Nya).
    f_equal. eapply IH; [|reflexivity].
    subst k. rewrite E, length_app. destruct x; [congruence|simpl; lia].
  - destruct (starts_with y (c :: r)) eqn:Sy.
    + apply starts_with_true in Sy as [r' E]. rewrite E.
      rewrite (scan1_lit_block x a y p4 r' Hy Hxy Nxy).
      rewrite !scan1_lit_here by assumption.
      rewrite (scan1_lit_block x a b p1 _ Hb Hxb Nxb).
      f_equal. eapply IH; [|reflexivity].
      subst k. rewrite E, length_app. destruct y; [congruence|simpl; lia].
    + rewrite (scan1_copy (lit_matcher y) b p2 c r)
        by (intros n; apply lit_matcher_miss, Sy).
      rewrite (scan1_copy (lit_matcher x) a p4 c r)
        by (intros n; apply lit_matcher_miss, Sx).
      rewrite scan1_copy, (scan1_copy (lit_matcher y)).
      * f_equal. eapply IH; [|reflexivity]. subst k; simpl; lia.
      * intros n. apply lit_matcher_miss.
        destruct (starts_with y (c :: Rx (Some c) r)) eqn:S; [|reflexivity].
        apply (scan1_lit_prefix x a y Hy Ha) with (P := [c]) in S.
        -- simpl in S. congruence.
        -- apply apart_sym, Hya.
        -- congruence.
      * intros n. apply lit_matcher_miss.
        destruct (starts_with x (c :: Ry (Some c) r)) eqn:S; [|reflexivity].
        apply (scan1_lit_prefix y b x Hx Hb) with (P := [c]) in S.
        -- simpl in S. congruence.
        -- apply apart_sym, Hxb.
        -- congruence.
Qed.
End Commute.

Lemma restore_step_comm (j k : N) (wj wk t : str) :
  j <> k -> is_clean wj -> is_clean wk ->
  restore_step (restore_step t (sentinel j, wj)) (sentinel k, wk) =
  restore_step (restore_step t (sentinel k, wk)) (sentinel j, wj).
Proof.
  intros Hjk Hj Hk. unfold restore_step, replace, re_sub.
  fold (scan1 (lit_matcher (sentinel j)) wj None t).
  fold (scan1 (lit_matcher (sentinel k)) wk None t).
  fold (scan1 (lit_matcher (sentinel k)) wk None
          (scan1 (lit_matcher (sentinel j)) wj None t)).
  fold (scan1 (lit_matcher (sentinel j)) wj None
          (scan1 (lit_matcher (sentinel k)) wk None t)).
  apply scan1_lit_comm.
  - apply sentinel_nonempty.
  - apply sentinel_nonempty.
  - apply clean_nonempty, Hk.
  - apply clean_nonempty, Hj.
  - apply apart_sentinel.
  - intros E; apply sentinel_inj in E; congruence.
  - apply apart_sym, apart_clean_sent; [exact Hk|apply sentinel_sent_like].
  - intros E; symmetry in E; revert E.
    apply clean_sent_neq; [exact Hk|apply sentinel_sent_like].
  - apply apart_sym, apart_clean_sent; [exact Hj|apply sentinel_sent_like].
  - intros E; symmetry in E; revert E.
    apply clean_sent_neq; [exact Hj|apply sentinel_sent_like].
Qed.

(** * Folding commuting steps in either order *)

Section FoldComm.
Variables T E : Type.
Variable f : T -> E -> T.

Lemma fold_left_push (e : E) (l : list E) :
  Forall (commute f e) l ->
  forall t, fold_left f l (f t e) = f (fold_left f l t) e.
Proof.
  induction 1 as [|e' l He _ IH]; intros t; [reflexivity|].
  simpl. rewrite <- IH. f_equal. apply He.
Qed.

Lemma fold_left_rev_comm (l : list E) :
  ForallOrdPairs (commute f) l ->
  forall t, fold_left f (rev l) t = fold_left f l t.
Proof.
  induction 1 as [|e l He _ IH]; intros t; [reflexivity|].
  simpl. rewrite fold_left_app. simpl. rewrite IH.
  symmetry. apply fold_left_push, He.
Qed.
End FoldComm.

Lemma number_later (n : N) (ws : list str) (P : str * str -> Prop) :
  Forall is_clean ws ->
  (forall k w, (n <= k)%N -> is_clean w -> P (sentinel k, w)) ->
  Forall P (number n ws).
Proof.
  intros Hws HP. revert n HP.
  induction Hws as [|w ws Hw _ IH]; intros n HP; constructor.
  - apply HP; [lia|exact Hw].
  - apply IH. intros k w' Hk Hc. apply HP; [lia|exact Hc].
Qed.

Lemma number_commute (ws : list str) :
  Forall is_clean ws ->
  forall n, ForallOrdPairs (commute restore_step) (number n ws).
Proof.
  induction 1 as [|w ws Hw Hws IH]; intros n; constructor.
  - apply number_later; [exact Hws|].
    intros k w' Hk Hc t. apply restore_step_comm; [lia|exact Hw|exact Hc].
  - apply IH.
Qed.

Lemma number_nodup (ws : list str) (n : N) : NoDup (map fst (number n ws)).
Proof.
  revert n; induction ws as [|w ws IH]; intros n; constructor.
  - intros H. apply in_map_iff in H as ([s o] & E & H). simpl in E. subst s.
    apply in_number in H as (k & Hk & E & _).
    apply sentinel_inj in E. lia.
  - apply IH.
Qed.

(** ** C10 *)

(** C10, amended (order-independent restoration): within one [protect]
    call the sentinels are numbered in the order of the matches, so they are
    pairwise distinct; when no text of the shape of a sentinel ([<<PROT_],
    four digits or more, [>>]) occurs in the document, each of them occurs
    exactly once in the masked text; and replaying the restorations in
    insertion order gives the same text as the reverse-order replay of
    [restore]. *)
Theorem restoration_order_independent (d : str) :
  (exists ws, snd (protect d) = number 0 ws) /\
  NoDup (map fst (snd (protect d))) /\
  (sentinel_shaped d = false ->
   forall s o, In (s, o) (snd (protect d)) -> count s (fst (protect d)) = 1) /\
  restore_forward (fst (protect d)) (snd (protect d)) =
  restore (fst (protect d)) (snd (protect d)).
Proof.
  destruct (protect_spec d) as (ws & Ers & Hps). rewrite Ers.
  split; [eauto|]. split; [apply number_nodup|]. split.
  - intros Hfree s o Hin.
    apply in_number in Hin as (k & Hk & -> & _).
    rewrite protect_fst, (ps_count _ _ _ _ _ Hps).
    rewrite (shape_free d Hfree), within_in by exact Hk. reflexivity.
  - unfold restore_forward, restore. symmetry.
    apply fold_left_rev_comm, number_commute.
    exact (ps_clean _ _ _ _ _ Hps).
Qed.

Lemma restoration_order_independent_witness :
  let d := lit "cdktf.json then CDKTF_HOME then cdktf.json" in
  sentinel_shaped d = false /\
  count (sentinel 1) (fst (protect d)) = 1.
Proof.
  cbv zeta. split; [vm_compute; reflexivity|].
  apply (proj1 (proj2 (proj2 (restoration_order_independent _))))
    with (o := lit "cdktf.json").
  - vm_compute. reflexivity.
  - vm_compute. right. left. reflexivity.
Defined.

(** * More than 9999 matches *)

(** The first pass finds every copy of the file name. *)
Lemma tf_json_found (n : nat) (pv : option ascii) (tail : str) :
  n <= List.length
         (find_scan (re_matcher (Lit tf_json)) 0 pv
                    (List.concat (repeat tf_json n) ++ tail)).
Proof.
  revert pv; induction n as [|n IH]; intros pv; [lia|].
  cbn [repeat List.concat]. rewrite <- app_assoc.
  rewrite (find_hit _ pv (tf_json ++ List.concat (repeat tf_json n) ++ tail) 12).
  - cbn [List.length].
    change (skipn 13 (tf_json ++ ?r)) with r.
    apply le_n_S, IH.
  - discriminate.
  - reflexivity.
Qed.

(** No four-digit sentinel starts inside a copy of the file name. *)
Lemma tf_json_no_sentinel (n : nat) (pv : option ascii) (tail : str) :
  (forall pv', find_scan (re_matcher SENTINEL_RE) 0 pv' tail = []) ->
  find_scan (re_matcher SENTINEL_RE) 0 pv
            (List.concat (repeat tf_json n) ++ tail) = [].
Proof.
  intros Ht. revert pv; induction n as [|n IH]; intros pv; [apply Ht|].
  cbn [repeat List.concat]. rewrite <- app_assoc.
  change (tf_json ++ ?r) with
    (ch "c" :: ch "d" :: ch "k" :: ch "t" :: ch "f" :: ch "." :: ch "t" ::
     ch "f" :: ch "." :: ch "j" :: ch "s" :: ch "o" :: ch "n" :: r).
  do 13 (rewrite find_copy by (intros k; discriminate)).
  apply IH.
Qed.

(** A sentinel occurs in the copies of the file name nowhere. *)
Lemma tf_json_count (n : nat) (k : N) (tail : str) :
  count (sentinel k) (List.concat (repeat tf_json n) ++ tail)
  = count (sentinel k) tail.
Proof.
  induction n as [|n IH]; [reflexivity|].
  cbn [repeat List.concat]. rewrite <- app_assoc.
  assert (Hc : is_clean tf_json) by reflexivity.
  destruct (sentinel_vs_clean tf_json k Hc) as [Ha Hne].
  pose proof (count_block _ _ Ha (sentinel_nonempty k) []
                (List.concat (repeat tf_json n) ++ tail) Hne) as E.
  cbn [app] in E. rewrite E, IH. reflexivity.
Qed.

(** Every number below the counter has its entry. *)
Lemma number_has (ws : list str) (n k : N) :
  (n <= k < upto n ws)%N -> exists o, In (sentinel k, o) (number n ws).
Proof.
  revert n; induction ws as [|w ws IH]; intros n Hk.
  - unfold upto in Hk; simpl in Hk; lia.
  - destruct (N.eq_dec k n) as [->|Hkn].
    + exists w. left. reflexivity.
    + rewrite <- (upto_cons n w) in Hk.
      destruct (IH (N.succ n)) as [o Ho]; [lia|].
      exists o. right. exact Ho.
Qed.

(** The counter of [protect] is at least the number of matches of the first
    pattern. *)
Lemma protect_counts_first (d : str) :
  exists ws,
    snd (protect d) = number 0 ws /\
    (forall k, count (sentinel k) (fst (protect d))
               = count (sentinel k) d + within 0 (upto 0 ws) k) /\
    List.length (find_scan (re_matcher (Lit tf_json)) 0 None d)
    <= List.length ws.
Proof.
  destruct (protect_spec d) as (ws & E & H).
  exists ws. split; [exact E|]. split.
  - intros k. rewrite protect_fst. apply (ps_count _ _ _ _ _ H).
  - pose proof (ps_state _ _ _ _ _ H) as S.
    change PROTECTED_PATTERNS
      with (Lit tf_json :: tl PROTECTED_PATTERNS) in S.
    cbn [fold_left] in S. rewrite protect_rule_eq in S.
    rewrite (surjective_pairing (sub_scan _ _ _ _ _ _)) in S.
    rewrite (pass_state (re_matcher (Lit tf_json))) in S.
    assert (Hc : forallb clean_re (tl PROTECTED_PATTERNS) = true)
      by reflexivity.
    set (ws1 := find_scan (re_matcher (Lit tf_json)) 0 None d) in *.
    destruct (passes_exist _ Hc
                (fst (sub_scan (re_matcher (Lit tf_json)) replacer 0 None d
                               (0%N, [])))
                (upto 0 ws1) ([] ++ number 0 ws1)) as [ws2 H2].
    pose proof (ps_state _ _ _ _ _ H2) as S2.
    pose proof (eq_trans (eq_sym S) S2) as S3. clear S S2.
    injection S3 as S3 _. unfold upto in S3. lia.
Qed.

(** C10, counterexample: the document has no substring of the form
    [<<PROT_dddd>>] with four digits, yet [protect] issues sentinel 10000 and
    that sentinel occurs twice in the masked text. *)
Lemma sentinel_twice_past_9999 :
  re_findall SENTINEL_RE many_matches = [] /\
  (exists o, In (sentinel 10000, o) (snd (protect many_matches))) /\
  count (sentinel 10000) (fst (protect many_matches)) = 2.
Proof.
  destruct (protect_counts_first many_matches) as (ws & E & C & L).
  assert (Hn : (10001 <= N.of_nat (List.length ws))%N).
  { pose proof (tf_json_found (N.to_nat 10001) None (lit "<<PROT_10000>>")) as F.
    fold many_matches in F. lia. }
  split; [|split].
  - apply tf_json_no_sentinel. intros pv'. reflexivity.
  - rewrite E. apply number_has. unfold upto. lia.
  - rewrite C. unfold many_matches. rewrite tf_json_count.
    rewrite within_in by (unfold upto; lia). reflexivity.
Qed.

(** * More on running the matcher *)

Lemma after_nil st : after st [] = st.
Proof. destruct st; unfold after; simpl. rewrite Nat.add_0_r. reflexivity. Qed.

Lemma after_app st u v : after (after st u) v = after st (u ++ v).
Proof.
  unfold after; simpl. rewrite last_char_app, length_app, Nat.add_assoc.
  reflexivity.
Qed.

Lemma rmatch_lit' (A : Type) (l r : str) st (k : mstate -> str -> option A) :
  rmatch (Lit l) st (l ++ r) k = k (after st l) r.
Proof. apply rmatch_lit. Qed.

Lemma rmatch_lit_fail (A : Type) (l s : str) st (k : mstate -> str -> option A) :
  strip_prefix l s = None -> rmatch (Lit l) st s k = None.
Proof. intros H. simpl. rewrite H. reflexivity. Qed.

Lemma star_run' (A : Type) (p : ascii -> bool) (ds rest : str) st
      (k : mstate -> str -> option A) (x : A) :
  forallb p ds = true -> stops p rest ->
  k (after st ds) rest = Some x ->
  rmatch (Star p) st (ds ++ rest) k = Some x.
Proof. intros H1 H2 H3. simpl. eapply star_run; eauto. Qed.

Lemma plus_run (A : Type) (p : ascii -> bool) (ds rest : str) st
      (k : mstate -> str -> option A) (x : A) :
  ds <> [] -> forallb p ds = true -> stops p rest ->
  k (after st ds) rest = Some x ->
  rmatch (Plus p) st (ds ++ rest) k = Some x.
Proof.
  intros Hn H1 H2 H3. destruct ds as [|c ds]; [congruence|].
  simpl in H1. apply andb_true_iff in H1 as [Hc H1].
  simpl. rewrite Hc. eapply star_run; eauto.
  cbn [prev pos caps]. unfold after in H3. rewrite last_char_cons in H3.
  replace (S (pos st) + List.length ds) with (pos st + List.length (c :: ds))
    by (simpl; lia).
  exact H3.
Qed.

Lemma opt_lit_take (A : Type) (l r : str) st (k : mstate -> str -> option A) x :
  k (after st l) r = Some x -> rmatch (Opt (Lit l)) st (l ++ r) k = Some x.
Proof.
  intros H. cbn [rmatch]. fold (rmatch (A:=A) (Lit l)).
  change (match rmatch (Lit l) st (l ++ r) k with
          | Some x0 => Some x0 | None => k st (l ++ r) end = Some x).
  rewrite rmatch_lit', H. reflexivity.
Qed.

Lemma opt_lit_skip (A : Type) (l s : str) st (k : mstate -> str -> option A) :
  strip_prefix l s = None -> rmatch (Opt (Lit l)) st s k = k st s.
Proof.
  intros H.
  change (match rmatch (Lit l) st s k with
          | Some x0 => Some x0 | None => k st s end = k st s).
  rewrite rmatch_lit_fail by exact H. reflexivity.
Qed.

Lemma rmatch_group (A : Type) (r : regex) st s (k : mstate -> str -> option A) :
  rmatch (Group r) st s k =
  rmatch r st s
    (fun st' rest =>
       k (MState (prev st') (pos st')
                 (caps st' ++ [firstn (pos st' - pos st) s])) rest).
Proof. reflexivity. Qed.

Lemma rmatch_eos_nil (A : Type) st (k : mstate -> str -> option A) :
  rmatch Eos st [] k = k st [].
Proof. reflexivity. Qed.

Lemma rmatch_eos_inv (A : Type) st s (k : mstate -> str -> option A) x :
  rmatch Eos st s k = Some x -> (s = [] \/ s = [nl]) /\ k st s = Some x.
Proof.
  simpl. destruct s as [|c [|d s]]; try discriminate; auto.
  destruct (Ascii.eqb c nl) eqn:E; [|discriminate].
  apply Ascii.eqb_eq in E; subst; auto.
Qed.

(** * Lines *)

Lemma split_lines_one (l : str) :
  forallb not_nl l = true -> split_lines l = [l].
Proof.
  induction l as [|c l IH]; simpl; [reflexivity|].
  intros H. apply andb_true_iff in H as [Hc H].
  unfold not_nl in Hc. apply negb_true_iff in Hc. rewrite Hc, (IH H).
  reflexivity.
Qed.

Lemma split_lines_cons (l : str) (s : str) :
  forallb not_nl l = true ->
  split_lines (l ++ nl :: s) = l :: split_lines s.
Proof.
  induction l as [|c l IH]; simpl; intros H.
  - reflexivity.
  - apply andb_true_iff in H as [Hc H].
    unfold not_nl in Hc. apply negb_true_iff in Hc. rewrite Hc, (IH H).
    reflexivity.
Qed.

(** Splitting what was joined gives the lines back. *)
Lemma split_join (ls : list str) :
  ls <> [] -> Forall (fun l => forallb not_nl l = true) ls ->
  split_lines (join_lines ls) = ls.
Proof.
  induction ls as [|l ls IH]; intros Hn H; [congruence|].
  inversion H as [|? ? Hl Hls]; subst.
  destruct ls as [|l2 ls].
  - simpl. apply split_lines_one, Hl.
  - change (join_lines (l :: l2 :: ls)) with (l ++ nl :: join_lines (l2 :: ls)).
    rewrite split_lines_cons by exact Hl. f_equal. apply IH; [discriminate|exact Hls].
Qed.

Lemma split_lines_nonempty (s : str) : split_lines s <> [].
Proof.
  induction s as [|c s IH]; simpl; [discriminate|].
  destruct (Ascii.eqb c nl); [discriminate|].
  destruct (split_lines s); [congruence|discriminate].
Qed.

(** Joining what was split gives the text back. *)
Lemma join_split (s : str) : join_lines (split_lines s) = s.
Proof.
  induction s as [|c s IH]; [reflexivity|].
  simpl. destruct (Ascii.eqb c nl) eqn:E.
  - apply Ascii.eqb_eq in E; subst c.
    pose proof (split_lines_nonempty s) as Hn.
    destruct (split_lines s) as [|l ls] eqn:Es; [congruence|].
    change (join_lines ([] :: l :: ls)) with ([] ++ nl :: join_lines (l :: ls)).
    rewrite IH. reflexivity.
  - pose proof (split_lines_nonempty s) as Hn.
    destruct (split_lines s) as [|l ls] eqn:Es; [congruence|].
    destruct ls as [|l2 ls]; simpl in *; rewrite <- IH; reflexivity.
Qed.

Lemma split_lines_no_nl (s : str) :
  Forall (fun l => forallb not_nl l = true) (split_lines s).
Proof.
  induction s as [|c s IH]; simpl; [repeat constructor|].
  destruct (Ascii.eqb c nl) eqn:E; [constructor; auto|].
  destruct (split_lines s) as [|l ls]; [repeat constructor; simpl|].
  - unfold not_nl. rewrite E. reflexivity.
  - inversion IH; subst. constructor; [|assumption].
    simpl. unfold not_nl at 1. rewrite E. assumption.
Qed.

Lemma split_lines_head (s : str) :
  exists l ls r, split_lines s = l :: ls /\ s = l ++ r.
Proof.
  induction s as [|c s (l & ls & r & E & Es)]; simpl.
  - exists [], [], []. auto.
  - destruct (Ascii.eqb c nl).
    + exists [], (split_lines s), (c :: s). auto.
    + rewrite E. exists (c :: l), ls, r. rewrite Es at 1. auto.
Qed.

Lemma split_lines_occurs (s l : str) : In l (split_lines s) -> occurs l s.
Proof.
  revert l; induction s as [|c s IH]; simpl; intros l H.
  - destruct H as [<-|[]]. exists [], []. reflexivity.
  - destruct (Ascii.eqb c nl).
    + destruct H as [<-|H].
      * exists [], (c :: s). reflexivity.
      * apply occurs_cons, IH, H.
    + destruct (split_lines_head s) as (l1 & ls & r & E & Es).
      rewrite E in H, IH. destruct H as [<-|H].
      * exists [], r. simpl. rewrite Es at 1. reflexivity.
      * apply occurs_cons, IH. right; exact H.
Qed.

(** * Deciding that two texts are apart *)

Lemma comparableb_true (x y : str) :
  comparable x y -> comparableb x y = true.
Proof.
  intros [w [->| ->]]; unfold comparableb; rewrite starts_with_app;
    [apply orb_true_r|reflexivity].
Qed.

Lemma str_eqb_eq (a b : str) : str_eqb a b = true -> a = b.
Proof.
  revert b; induction a as [|x a IH]; intros [|y b]; simpl; try discriminate.
  - reflexivity.
  - intros H. apply andb_true_iff in H as [H1 H2].
    apply Ascii.eqb_eq in H1. f_equal; auto.
Qed.

Lemma str_eqb_refl (a : str) : str_eqb a a = true.
Proof.
  induction a as [|x a IH]; simpl; [reflexivity|].
  rewrite ascii_eqb_refl. exact IH.
Qed.

Lemma no_hitb_from_sound (u v : str) (first : bool) :
  no_hitb_from first u v = true ->
  forall l l', u = l ++ l' -> l' <> [] -> comparable l' v ->
               first = true /\ l = [] /\ l' = v.
Proof.
  revert first; induction u as [|c u IH]; intros first H l l' E Hn Hc.
  - destruct l, l'; simpl in E; congruence.
  - cbn [no_hitb_from] in H. apply andb_true_iff in H as [H1 H2].
    destruct l as [|c0 l].
    + simpl in E. subst l'.
      rewrite (comparableb_true _ _ Hc) in H1.
      apply andb_true_iff in H1 as [-> H1]. apply str_eqb_eq in H1. auto.
    + injection E as -> E. 
      destruct (IH false H2 l l' E Hn Hc) as [F _]. discriminate.
Qed.

Lemma apartb_sound (u v : str) : apartb u v = true -> apart u v.
Proof.
  unfold apartb. intros H.
  destruct u as [|a u]; [discriminate|]. destruct v as [|b v]; [discriminate|].
  apply andb_true_iff in H as [H1 H2].
  apply apart_intro; try discriminate.
  - intros l l' E Hn Hc.
    destruct (no_hitb_from_sound _ _ _ H1 l l' E Hn Hc) as (_ & ? & ?). auto.
  - intros l l' E Hn Hc.
    destruct (no_hitb_from_sound _ _ _ H2 l l' E Hn Hc) as (_ & ? & ?). auto.
Qed.

(** * Callouts *)

Lemma rmatch_bos (A : Type) n cs s (k : mstate -> str -> option A) :
  rmatch Bos (MState None n cs) s k = k (MState None n cs) s.
Proof. reflexivity. Qed.

Lemma good_body_inv (body : str) :
  good_body body = true ->
  exists b0 body', body = b0 :: body' /\ is_space b0 = false /\
                   Ascii.eqb b0 (ch ":") = false /\ forallb not_nl body = true.
Proof.
  destruct body as [|b0 body']; [discriminate|]. unfold good_body.
  intros H. apply andb_true_iff in H as [H H3]. apply andb_true_iff in H as [H1 H2].
  apply negb_true_iff in H1, H2. eauto 6.
Qed.

Lemma stops_body (body : str) : good_body body = true -> stops is_space body.
Proof.
  intros H. apply good_body_inv in H as (b0 & body' & -> & H & _). exact H.
Qed.

Lemma space_not_colon (c : ascii) :
  is_space c = true -> Ascii.eqb (ch ":") c = false.
Proof.
  intros H. destruct (Ascii.eqb (ch ":") c) eqn:E; [|reflexivity].
  apply Ascii.eqb_eq in E. subst c. discriminate.
Qed.

Lemma no_colon_ahead (ws body : str) :
  forallb is_space ws = true -> good_body body = true ->
  strip_prefix (lit ":") (ws ++ body) = None.
Proof.
  intros Hws Hb. destruct ws as [|c ws].
  - apply good_body_inv in Hb as (b0 & body' & -> & _ & H & _).
    change (strip_prefix (lit ":") ([] ++ b0 :: body'))
      with (if Ascii.eqb (ch ":") b0 then Some body' else None).
    rewrite Ascii.eqb_sym, H. reflexivity.
  - simpl in Hws. apply andb_true_iff in Hws as [Hc _].
    change (strip_prefix (lit ":") ((c :: ws) ++ body))
      with (if Ascii.eqb (ch ":") c then Some (ws ++ body) else None).
    rewrite (space_not_colon c Hc). reflexivity.
Qed.

(** The tail [\s*(.+)$] of every callout pattern. *)
Lemma tail_match (ws body : str) (st : mstate) :
  forallb is_space ws = true -> good_body body = true ->
  rmatch (Seq (Star is_space) (Seq (Group (Plus not_nl)) Eos)) st (ws ++ body)
         (fun st' _ => Some (caps st'))
  = Some (caps st ++ [body]).
Proof.
  intros Hws Hb. rewrite rmatch_seq.
  apply star_run'; [exact Hws|apply stops_body, Hb|].
  rewrite rmatch_seq, rmatch_group.
  rewrite <- (app_nil_r body) at 1.
  pose proof Hb as Hb'. apply good_body_inv in Hb' as (b0 & body' & E & _ & _ & Hnl).
  apply plus_run; [rewrite E; discriminate|exact Hnl|exact I|].
  rewrite rmatch_eos_nil. cbn [caps after pos prev].
  replace (pos st + List.length ws + List.length body - (pos st + List.length ws))
    with (List.length body) by lia.
  rewrite firstn_all. reflexivity.
Qed.

Section Labelled.
Variable prefix : string.
Variable label : regex.
Variable ltext : str.
Hypothesis Hlabel :
  forall st rest (k : mstate -> str -> option (list str)),
    rmatch label st (ltext ++ rest) k = k (after st ltext) rest.

Lemma labelled_match (ws1 ws2 body : str) (c1 c2 : bool) :
  forallb is_space ws1 = true -> forallb is_space ws2 = true ->
  good_body body = true ->
  re_match (LABELLED prefix label)
           (labelled_line prefix ws1 ltext c1 c2 ws2 body) = Some [body].
Proof.
  intros H1 H2 Hb. unfold re_match, LABELLED, labelled_line.
  rewrite rmatch_seq, rmatch_bos.
  rewrite rmatch_seq, rmatch_lit'.
  rewrite rmatch_seq. apply star_run'; [exact H1|reflexivity|].
  rewrite rmatch_seq, rmatch_lit'.
  rewrite rmatch_seq, Hlabel.
  rewrite rmatch_seq.
  assert (Hrest : forall st,
    rmatch (Seq (Lit (lit "**"))
              (Seq (Opt (Lit (lit ":")))
                 (Seq (Star is_space) (Seq (Group (Plus not_nl)) Eos))))
           st (lit "**" ++ colon c2 ++ ws2 ++ body)
           (fun st' _ => Some (caps st')) = Some (caps st ++ [body])).
  { intros st. rewrite rmatch_seq, rmatch_lit', rmatch_seq.
    destruct c2; unfold colon; cbn [app].
    - apply opt_lit_take. rewrite (tail_match ws2 body _ H2 Hb). reflexivity.
    - rewrite opt_lit_skip by (apply no_colon_ahead; assumption).
      rewrite (tail_match ws2 body _ H2 Hb). reflexivity. }
  destruct c1; unfold colon; cbn [app].
  - apply opt_lit_take. rewrite Hrest. reflexivity.
  - rewrite opt_lit_skip by reflexivity. rewrite Hrest. reflexivity.
Qed.
End Labelled.

Lemma lit_label (l : str) :
  forall st rest (k : mstate -> str -> option (list str)),
    rmatch (Lit l) st (l ++ rest) k = k (after st l) rest.
Proof. intros; apply rmatch_lit'. Qed.

Lemma hands_on_label (sep o : ascii) :
  space_or_dash sep = true -> big_or_small_o o = true ->
  forall st rest (k : mstate -> str -> option (list str)),
    rmatch HANDS_ON st ((lit "Hands" ++ [sep; o] ++ lit "n") ++ rest) k
    = k (after st (lit "Hands" ++ [sep; o] ++ lit "n")) rest.
Proof.
  intros Hs Ho st rest k. unfold HANDS_ON.
  rewrite <- !app_assoc.
  rewrite rmatch_seq, rmatch_lit'. cbn [app].
  rewrite rmatch_seq, rmatch_cls by exact Hs.
  rewrite rmatch_seq, rmatch_cls by exact Ho.
  change (lit "n" ++ rest) with ([ch "n"] ++ rest).
  rewrite (rmatch_lit' _ [ch "n"] rest). f_equal.
  unfold after. cbn [prev pos caps]. f_equal. simpl. lia.
Qed.

Lemma unlabelled_match (prefix : string) (ws body : str) :
  forallb is_space ws = true -> good_body body = true ->
  re_match (UNLABELLED prefix) (unlabelled_line prefix ws body) = Some [body].
Proof.
  intros H Hb. unfold re_match, UNLABELLED, unlabelled_line.
  rewrite rmatch_seq, rmatch_bos, rmatch_seq, rmatch_lit'.
  rewrite (tail_match ws body _ H Hb). reflexivity.
Qed.

(** ** Patterns that do not match *)

Lemma labelled_prefix_fail (prefix : string) (label : regex) (line : str) :
  strip_prefix (lit prefix) line = None ->
  re_match (LABELLED prefix label) line = None.
Proof.
  intros H. unfold re_match, LABELLED.
  rewrite rmatch_seq, rmatch_bos, rmatch_seq.
  apply rmatch_lit_fail, H.
Qed.

Lemma unlabelled_prefix_fail (prefix : string) (line : str) :
  strip_prefix (lit prefix) line = None ->
  re_match (UNLABELLED prefix) line = None.
Proof.
  intros H. unfold re_match, UNLABELLED.
  rewrite rmatch_seq, rmatch_bos, rmatch_seq.
  apply rmatch_lit_fail, H.
Qed.

(** After the same run of spaces comes the same character. *)
Lemma spaces_then (a b x y : str) (c d : ascii) :
  forallb is_space a = true -> forallb is_space b = true ->
  is_space c = false -> is_space d = false ->
  a ++ c :: x = b ++ d :: y -> c = d /\ x = y.
Proof.
  revert b; induction a as [|s a IH]; intros [|t b] Ha Hb Hc Hd E;
    simpl in *.
  - injection E as -> ->. auto.
  - injection E as -> _. apply andb_true_iff in Hb as [Hb _]. congruence.
  - injection E as -> _. apply andb_true_iff in Ha as [Ha _]. congruence.
  - injection E as _ E.
    apply andb_true_iff in Ha as [_ Ha]. apply andb_true_iff in Hb as [_ Hb].
    eauto.
Qed.

(** What a labelled pattern requires of a line. *)
Lemma labelled_inv (prefix : string) (label : regex) (line : str) cs :
  re_match (LABELLED prefix label) line = Some cs ->
  exists w1 wl c x,
    line = lit prefix ++ w1 ++ lit "**" ++ wl ++ x /\
    forallb is_space w1 = true /\ clang label wl c.
Proof.
  intros H. apply re_match_sound in H as (w & rest & -> & H).
  unfold LABELLED in H. cbn [clang] in H.
  destruct H as (u0 & v0 & ? & ? & -> & _ & [-> _] & H).
  destruct H as (u1 & v1 & ? & ? & -> & _ & [-> _] & H).
  destruct H as (w1 & v2 & ? & ? & -> & _ & [Hw1 _] & H).
  destruct H as (u3 & v3 & ? & ? & -> & _ & [-> _] & H).
  destruct H as (wl & v4 & c & ? & -> & _ & Hl & _).
  exists w1, wl, c, (v4 ++ rest).
  split; [|split; assumption].
  rewrite <- !app_assoc. simpl. repeat rewrite <- app_assoc. reflexivity.
Qed.

Lemma labelled_label_fail (prefix : string) (label : regex) (l0 c : ascii)
      (ws rest : str) :
  (forall w cs, clang label w cs -> exists w', w = l0 :: w') ->
  c <> l0 -> forallb is_space ws = true ->
  re_match (LABELLED prefix label) (lit prefix ++ ws ++ lit "**" ++ c :: rest)
  = None.
Proof.
  intros Hl Hne Hws.
  destruct (re_match _ _) as [cs|] eqn:E; [exfalso|reflexivity].
  apply labelled_inv in E as (w1 & wl & cl & x & E & Hw1 & Hc).
  apply app_inv_head in E.
  destruct (Hl _ _ Hc) as [w' ->].
  apply (spaces_then ws w1 _ _ (ch "*") (ch "*")) in E; auto.
  destruct E as [_ E]. simpl in E. inversion E. congruence.
Qed.

Lemma labelled_other_fail (prefix : string) (label : regex) (l0 c : ascii)
      (ws1 l' ws2 body : str) (c1 c2 : bool) :
  (forall w cs, clang label w cs -> exists w', w = l0 :: w') ->
  c <> l0 -> forallb is_space ws1 = true ->
  re_match (LABELLED prefix label)
           (labelled_line prefix ws1 (c :: l') c1 c2 ws2 body) = None.
Proof.
  intros Hl Hne Hws.
  exact (labelled_label_fail prefix label l0 c ws1
           (l' ++ colon c1 ++ lit "**" ++ colon c2 ++ ws2 ++ body) Hl Hne Hws).
Qed.

Lemma labelled_plain_fail (prefix : string) (label : regex) (ws body : str)
      (b0 : ascii) :
  forallb is_space ws = true -> is_space b0 = false -> b0 <> ch "*" ->
  re_match (LABELLED prefix label) (lit prefix ++ ws ++ b0 :: body) = None.
Proof.
  intros Hws Hb Hne.
  destruct (re_match _ _) as [cs|] eqn:E; [exfalso|reflexivity].
  apply labelled_inv in E as (w1 & wl & cl & x & E & Hw1 & Hc).
  apply app_inv_head in E.
  apply (spaces_then ws w1 _ _ b0 (ch "*")) in E; auto.
  destruct E as [E _]. congruence.
Qed.

Lemma lit_word (l : str) (l0 : ascii) (l' : str) :
  l = l0 :: l' -> forall w cs, clang (Lit l) w cs -> exists w', w = l0 :: w'.
Proof. intros -> w cs [-> _]. eauto. Qed.

(** ** The two translators, line by line *)

Section Lines.
Variables ws1 ws2 body : str.
Variables c1 c2 : bool.
Hypothesis H1 : forallb is_space ws1 = true.
Hypothesis H2 : forallb is_space ws2 = true.
Hypothesis Hb : good_body body = true.

Lemma arrow_warning :
  callout_line ARROW_RULES
    (labelled_line "~>" ws1 (lit "Warning") c1 c2 ws2 body)
  = tagged "Warning" body.
Proof.
  cbn [callout_line ARROW_RULES rule].
  rewrite (labelled_match "~>" _ _ (lit_label _)) by assumption. reflexivity.
Qed.

Lemma arrow_important :
  callout_line ARROW_RULES
    (labelled_line "~>" ws1 (lit "Important") c1 c2 ws2 body)
  = tagged "Warning" body.
Proof.
  cbn [callout_line ARROW_RULES rule].
  set (line := labelled_line "~>" ws1 (lit "Important") c1 c2 ws2 body).
  assert (E : line = labelled_line "~>" ws1 (ch "I" :: lit "mportant")
                       c1 c2 ws2 body) by reflexivity.
  rewrite E at 1.
  rewrite (labelled_other_fail "~>" _ (ch "W") (ch "I"));
    [|eapply lit_word; reflexivity|discriminate|exact H1].
  subst line.
  rewrite (labelled_match "~>" _ _ (lit_label _)) by assumption. reflexivity.
Qed.

Lemma arrow_note :
  callout_line ARROW_RULES
    (labelled_line "~>" ws1 (lit "Note") c1 c2 ws2 body)
  = tagged "Note" body.
Proof.
  cbn [callout_line ARROW_RULES rule].
  set (line := labelled_line "~>" ws1 (lit "Note") c1 c2 ws2 body).
  assert (E : line = labelled_line "~>" ws1 (ch "N" :: lit "ote") c1 c2 ws2 body)
    by reflexivity.
  rewrite E at 1.
  rewrite (labelled_other_fail "~>" _ (ch "W") (ch "N"));
    [|eapply lit_word; reflexivity|discriminate|exact H1].
  rewrite E at 1.
  rewrite (labelled_other_fail "~>" _ (ch "I") (ch "N"));
    [|eapply lit_word; reflexivity|discriminate|exact H1].
  subst line.
  rewrite (labelled_match "~>" _ _ (lit_label _)) by assumption. reflexivity.
Qed.

Lemma dash_note :
  callout_line ARROW_RULES
    (labelled_line "->" ws1 (lit "Note") c1 c2 ws2 body)
  = tagged "Note" body.
Proof.
  cbn [callout_line ARROW_RULES rule].
  rewrite !(labelled_prefix_fail "~>") by reflexivity.
  rewrite (labelled_match "->" _ _ (lit_label _)) by assumption. reflexivity.
Qed.

Lemma plus_note :
  callout_line ARROW_RULES
    (labelled_line "+->" ws1 (lit "Note") c1 c2 ws2 body)
  = tagged "Tip" body.
Proof.
  cbn [callout_line ARROW_RULES rule].
  rewrite !(labelled_prefix_fail "~>") by reflexivity.
  rewrite (labelled_prefix_fail "->") by reflexivity.
  rewrite (labelled_match "+->" _ _ (lit_label _)) by assumption. reflexivity.
Qed.

Lemma plus_plain :
  starts_with (lit "*") body = false ->
  callout_line ARROW_RULES (unlabelled_line "+->" ws1 body)
  = tagged "Tip" body.
Proof.
  intros Hs. cbn [callout_line ARROW_RULES rule].
  rewrite !(labelled_prefix_fail "~>") by reflexivity.
  rewrite (labelled_prefix_fail "->") by reflexivity.
  pose proof Hb as Hb'.
  apply good_body_inv in Hb' as (b0 & body' & E & Hsp & _ & _).
  unfold unlabelled_line at 1. rewrite E at 1.
  rewrite (labelled_plain_fail "+->"); [|exact H1|exact Hsp|].
  - rewrite unlabelled_match by assumption. reflexivity.
  - intros ->. rewrite E in Hs. discriminate.
Qed.

Lemma quote_note :
  callout_line BLOCKQUOTE_RULES
    (labelled_line ">" ws1 (lit "Note") c1 c2 ws2 body)
  = tagged "Note" body.
Proof.
  cbn [callout_line BLOCKQUOTE_RULES rule].
  rewrite (labelled_match ">" _ _ (lit_label _)) by assumption. reflexivity.
Qed.

Lemma quote_hands (sep o : ascii) :
  space_or_dash sep = true -> big_or_small_o o = true ->
  callout_line BLOCKQUOTE_RULES
    (labelled_line ">" ws1 (lit "Hands" ++ [sep; o] ++ lit "n") c1 c2 ws2 body)
  = tagged "Tip" body.
Proof.
  intros Hs Ho. cbn [callout_line BLOCKQUOTE_RULES rule].
  set (line := labelled_line ">" ws1 (lit "Hands" ++ [sep; o] ++ lit "n")
                 c1 c2 ws2 body).
  assert (E : line = labelled_line ">" ws1
                (ch "H" :: lit "ands" ++ [sep; o] ++ lit "n") c1 c2 ws2 body)
    by reflexivity.
  rewrite E at 1.
  rewrite (labelled_other_fail ">" _ (ch "N") (ch "H"));
    [|eapply lit_word; reflexivity|discriminate|exact H1].
  subst line.
  rewrite (labelled_match ">" _ _ (hands_on_label sep o Hs Ho)) by assumption.
  reflexivity.
Qed.
End Lines.

(** Each translator works line by line. *)
Lemma callouts_by_line (rules : list (regex * string)) (ls : list str) :
  ls <> [] -> Forall (fun l => forallb not_nl l = true) ls ->
  join_lines (map (callout_line rules) (split_lines (join_lines ls)))
  = join_lines (map (callout_line rules) ls).
Proof. intros Hn H. rewrite split_join by assumption. reflexivity. Qed.

Lemma convert_arrow_one (line : str) :
  forallb not_nl line = true ->
  convert_arrow_callouts line = callout_line ARROW_RULES line.
Proof.
  intros H. unfold convert_arrow_callouts. rewrite split_lines_one by exact H.
  reflexivity.
Qed.

Lemma convert_blockquote_one (line : str) :
  forallb not_nl line = true ->
  convert_blockquote_callouts line = callout_line BLOCKQUOTE_RULES line.
Proof.
  intros H. unfold convert_blockquote_callouts.
  rewrite split_lines_one by exact H. reflexivity.
Qed.

Lemma good_body_no_nl (body : str) :
  good_body body = true -> forallb not_nl body = true.
Proof. intros H. apply good_body_inv in H as (? & ? & _ & _ & _ & H). exact H. Qed.

Lemma no_nl_app (a b : str) :
  forallb not_nl a = true -> forallb not_nl b = true ->
  forallb not_nl (a ++ b) = true.
Proof. intros Ha Hb. rewrite forallb_app, Ha, Hb. reflexivity. Qed.

(** ** C5 *)




(** ** C8 *)




(** * Duplicate H1 *)

Lemma sub_first_miss (repl : list str -> str) pv c s :
  h1_at pv (c :: s) = None ->
  sub_first DUPLICATE_H1 repl pv (c :: s)
  = c :: sub_first DUPLICATE_H1 repl (Some c) s.
Proof.
  intros H. cbn [sub_first]. unfold h1_at in H. rewrite H. reflexivity.
Qed.

Lemma sub_first_hit (repl : list str -> str) pv s n groups :
  h1_at pv s = Some (n, groups) ->
  sub_first DUPLICATE_H1 repl pv s = repl groups ++ skipn n s.
Proof.
  intros H. unfold h1_at in H. destruct s; cbn [sub_first]; rewrite H; reflexivity.
Qed.

Lemma repeat_nl (k : nat) : forallb is_nl (repeat nl k) = true.
Proof. induction k; simpl; auto. Qed.

Lemma h1_here (pv : option ascii) (k : nat) (h rest : str) :
  h <> [] -> forallb not_nl h = true ->
  exists n,
    h1_at pv (heading_after_dashes k h rest) = Some (n, [dashes]) /\
    skipn n (heading_after_dashes k h rest) = drop_nl rest.
Proof.
  intros Hh Hnl.
  set (n0 := 4 + k + 2 + List.length h + 1).
  assert (Hskip : skipn n0 (heading_after_dashes k h rest) = rest).
  { unfold heading_after_dashes, n0.
    replace (4 + k + 2 + List.length h + 1)
      with (List.length (dashes ++ repeat nl k ++ lit "# " ++ h ++ [nl])).
    - replace (dashes ++ repeat nl k ++ lit "# " ++ h ++ nl :: rest)
        with ((dashes ++ repeat nl k ++ lit "# " ++ h ++ [nl]) ++ rest).
      + rewrite skipn_app, Nat.sub_diag, skipn_all. reflexivity.
      + rewrite <- !app_assoc. reflexivity.
    - rewrite !length_app, repeat_length. simpl. lia. }
  assert (Hmain : forall x,
     rmatch (Opt (Lit [nl])) (MState (Some nl) n0 [dashes]) rest
            (fun st _ => Some (pos st, caps st)) = Some x ->
     h1_at pv (heading_after_dashes k h rest) = Some x).
  { intros x Hk. unfold h1_at, DUPLICATE_H1, heading_after_dashes.
    rewrite rmatch_seq, rmatch_group, rmatch_lit'.
    rewrite rmatch_seq. apply star_run'; [apply repeat_nl|reflexivity|].
    rewrite rmatch_seq, rmatch_lit'. rewrite rmatch_seq.
    apply plus_run; [exact Hh|exact Hnl|simpl; unfold not_nl;
                     rewrite ascii_eqb_refl; reflexivity|].
    rewrite rmatch_seq.
    change (nl :: rest) with ([nl] ++ rest). rewrite rmatch_lit'.
    match goal with |- rmatch _ ?st rest _ = _ =>
      replace st with (MState (Some nl) n0 [dashes]); [exact Hk|] end.
    unfold after. cbn [prev pos caps]. f_equal; try reflexivity.
    rewrite repeat_length. unfold n0, dashes. simpl. lia. }
  destruct rest as [|c rest'].
  - exists n0. split; [|exact Hskip]. apply Hmain. reflexivity.
  - destruct (Ascii.eqb c nl) eqn:Ec.
    + apply Ascii.eqb_eq in Ec; subst c. exists (S n0). split.
      * apply Hmain. change (nl :: rest') with ([nl] ++ rest').
        apply opt_lit_take. unfold after. cbn [prev pos caps]. f_equal. f_equal.
        simpl. lia.
      * change (drop_nl (nl :: rest')) with rest'.
        replace (S n0) with (1 + n0) by lia.
        rewrite <- skipn_skipn, Hskip. reflexivity.
    + exists n0. split.
      * apply Hmain. rewrite opt_lit_skip; [reflexivity|].
        change (strip_prefix [nl] (c :: rest'))
          with (if Ascii.eqb nl c then Some rest' else None).
        rewrite Ascii.eqb_sym, Ec. reflexivity.
      * simpl drop_nl. rewrite Ec. exact Hskip.
Qed.

Lemma remove_h1_at_first_match (pre s : str) (n : nat) (groups : list str) :
  (forall p1 p2, pre = p1 ++ p2 -> p2 <> [] ->
                 h1_at (last_char None p1) (p2 ++ s) = None) ->
  h1_at (last_char None pre) s = Some (n, groups) ->
  remove_duplicate_h1 (pre ++ s) = pre ++ (nth 0 groups [] ++ [nl]) ++ skipn n s.
Proof.
  unfold remove_duplicate_h1. generalize (@None ascii) as pv.
  induction pre as [|c pre IH]; intros pv Hno Hhit.
  - simpl in *. erewrite sub_first_hit; eauto.
  - change ((c :: pre) ++ s) with (c :: (pre ++ s)).
    rewrite sub_first_miss.
    + simpl. f_equal. apply IH.
      * intros p1 p2 E Hn. specialize (Hno (c :: p1) p2).
        rewrite last_char_cons in Hno. apply Hno; [rewrite E; reflexivity|exact Hn].
      * rewrite last_char_cons in Hhit. exact Hhit.
    + apply (Hno [] (c :: pre)); [reflexivity|discriminate].
Qed.

(** ** C9 *)

(** C9 (duplicate-H1 removal is not anchored to the frontmatter): the
    leftmost place of the whole text where a line of three dashes is followed,
    after any number of blank lines, by a heading line [# ...] loses that
    heading (and one blank line after it); what comes before and after is
    copied as it is, so at most one heading goes.  For a document whose
    frontmatter is followed by prose, the heading after a later thematic break
    is the one deleted. *)
Theorem duplicate_h1_unanchored (pre h rest : str) (k : nat) :
  h <> [] -> forallb not_nl h = true ->
  (forall p1 p2, pre = p1 ++ p2 -> p2 <> [] ->
     h1_at (last_char None p1) (p2 ++ heading_after_dashes k h rest) = None) ->
  remove_duplicate_h1 (pre ++ heading_after_dashes k h rest)
    = pre ++ dashes ++ [nl] ++ drop_nl rest
  /\
  remove_duplicate_h1
    (lit "---" ++ [nl] ++ lit "title: T" ++ [nl] ++ lit "---" ++ [nl] ++ [nl]
     ++ lit "Intro" ++ [nl] ++ [nl]
     ++ lit "---" ++ [nl] ++ lit "# Later" ++ [nl] ++ [nl] ++ lit "Body")
  = lit "---" ++ [nl] ++ lit "title: T" ++ [nl] ++ lit "---" ++ [nl] ++ [nl]
     ++ lit "Intro" ++ [nl] ++ [nl]
     ++ lit "---" ++ [nl] ++ [nl] ++ lit "Body".
Proof.
  intros Hh Hnl Hno. split; [|vm_compute; reflexivity].
  destruct (h1_here (last_char None pre) k h rest Hh Hnl) as (n & Hat & Hskip).
  rewrite (remove_h1_at_first_match pre _ n [dashes] Hno Hat), Hskip.
  simpl nth. rewrite <- !app_assoc. reflexivity.
Qed.

Lemma duplicate_h1_unanchored_witness :
  let pre := lit "---" ++ [nl] ++ lit "title: T" ++ [nl] in
  remove_duplicate_h1
    (pre ++ heading_after_dashes 1 (lit "Heading") ([nl] ++ lit "Body"))
  = pre ++ dashes ++ [nl] ++ lit "Body".
Proof.
  cbv zeta.
  refine (proj1 (duplicate_h1_unanchored _ (lit "Heading") ([nl] ++ lit "Body") 1
                   _ _ _)).
  - discriminate.
  - reflexivity.
  - intros p1 p2 E Hn. simpl in E.
    do 13 (destruct p1 as [|? p1];
           [simpl in E; subst p2; vm_compute; reflexivity
           |simpl in E; injection E as <- E]).
    destruct p1, p2; simpl in E; congruence.
Defined.

(** * Code tabs *)

Lemma space_not_word_or_dash (c : ascii) :
  is_space c = true -> word_or_dash c = false.
Proof.
  destruct c as [[] [] [] [] [] [] [] []]; vm_compute; congruence.
Qed.

Lemma stops_spaces (p : ascii -> bool) (ws : str) :
  (forall c, is_space c = true -> p c = false) ->
  forallb is_space ws = true -> stops p ws.
Proof.
  intros Hp H. destruct ws as [|c ws]; [exact I|].
  simpl in H. apply andb_true_iff in H as [H _]. simpl. auto.
Qed.

Lemma fence_match (lang ws : str) :
  is_fence lang ws ->
  re_match FENCE_OPEN (fence_line lang ws) = Some [lit "```"; lang].
Proof.
  intros (Hn & Hl & Hw). unfold re_match, FENCE_OPEN, fence_line.
  rewrite rmatch_seq. change (rmatch Bos (MState None 0 []) ?s ?k)
    with (k (MState None 0 []) s). cbv beta.
  rewrite rmatch_seq, rmatch_group, rmatch_lit'.
  rewrite rmatch_seq, rmatch_group.
  apply plus_run; [exact Hn|exact Hl|
                   apply stops_spaces; [apply space_not_word_or_dash|exact Hw]|].
  rewrite rmatch_seq. rewrite <- (app_nil_r ws).
  apply star_run'; [exact Hw|exact I|].
  rewrite rmatch_eos_nil. unfold after. cbn [prev pos caps]. f_equal.
  cbn [app List.length lit list_ascii_of_string].
  replace (0 + 3 + List.length lang - (0 + 3)) with (List.length lang) by lia.
  rewrite firstn_app, Nat.sub_diag, firstn_all. simpl. rewrite app_nil_r.
  reflexivity.
Qed.

Lemma fence_inv (line : str) (groups : list str) :
  re_match FENCE_OPEN line = Some groups ->
  exists lang ws,
    line = fence_line lang ws /\ is_fence lang ws /\ groups = [lit "```"; lang].
Proof.
  unfold re_match, FENCE_OPEN. rewrite rmatch_seq.
  change (rmatch Bos (MState None 0 []) ?s ?k) with (k (MState None 0 []) s).
  cbv beta. rewrite rmatch_seq. intros H.
  apply rmatch_sound in H as (w1 & r1 & cs1 & -> & H1 & H).
  rewrite rmatch_seq in H.
  apply rmatch_sound in H as (w2 & r2 & cs2 & -> & H2 & H).
  rewrite rmatch_seq in H.
  apply rmatch_sound in H as (w3 & r3 & cs3 & -> & H3 & H).
  apply rmatch_eos_inv in H as [Hr H]. cbn [caps] in H. injection H as <-.
  cbn [clang] in H1, H2, H3.
  destruct H1 as (c1 & [-> ->] & ->).
  destruct H2 as (c2 & [[Hn Hl] ->] & ->).
  destruct H3 as [Hw ->].
  exists w2, (w3 ++ r3). split; [reflexivity|]. split; [|reflexivity].
  split; [exact Hn|]. split; [exact Hl|].
  rewrite forallb_app, Hw. destruct Hr as [->| ->]; reflexivity.
Qed.

Lemma no_lt_contains (p line : str) :
  forallb (fun c => negb (Ascii.eqb c lt_c)) line = true ->
  contains (lt_c :: p) line = false.
Proof.
  induction line as [|c line IH]; intros H; [reflexivity|].
  simpl in H. apply andb_true_iff in H as [Hc H].
  cbn [contains]. rewrite (IH H), orb_false_r.
  unfold starts_with. cbn [strip_prefix].
  rewrite Ascii.eqb_sym. apply negb_true_iff in Hc. rewrite Hc. reflexivity.
Qed.

Lemma fence_no_lt (lang ws : str) :
  is_fence lang ws ->
  forallb (fun c => negb (Ascii.eqb c lt_c)) (fence_line lang ws) = true.
Proof.
  intros (_ & Hl & Hw). unfold fence_line.
  rewrite !forallb_app. rewrite andb_true_iff; split; [reflexivity|].
  rewrite andb_true_iff; split.
  - eapply forallb_impl; [|exact Hl]. intros c Hc.
    destruct (Ascii.eqb c lt_c) eqn:E; [|reflexivity].
    apply Ascii.eqb_eq in E; subst c. discriminate.
  - eapply forallb_impl; [|exact Hw]. intros c Hc.
    destruct (Ascii.eqb c lt_c) eqn:E; [|reflexivity].
    apply Ascii.eqb_eq in E; subst c. discriminate.
Qed.

Lemma title_not_spaces (key : str) :
  lookup LANG_TITLES key <> [] ->
  forallb is_space (lookup LANG_TITLES key) = false.
Proof.
  unfold LANG_TITLES, entry. cbn [lookup].
  repeat (destruct (str_eqb _ key); [intros _; reflexivity|]).
  congruence.
Qed.

(** The line the loop puts out, for a fence line. *)
Lemma titled_output (st : scope) (lang ws : str) :
  is_fence lang ws ->
  in_codegroup st = true -> in_code_block st = false ->
  lookup LANG_TITLES lang <> [] ->
  snd (codetabs_line st (fence_line lang ws))
  = lit "```" ++ lang ++ lit " " ++ lookup LANG_TITLES lang.
Proof.
  intros Hf Hg Hb Ht. unfold codetabs_line.
  pose proof (fence_no_lt lang ws Hf) as Hlt.
  change (lit "<CodeGroup>") with (lt_c :: lit "CodeGroup>").
  change (lit "</CodeGroup>") with (lt_c :: lit "/CodeGroup>").
  rewrite !no_lt_contains by exact Hlt.
  rewrite Hg, Hb. cbn [andb negb]. rewrite (fence_match lang ws Hf).
  cbn [nth snd]. destruct (lookup LANG_TITLES lang); [congruence|reflexivity].
Qed.

Lemma titled_differs (lang ws : str) :
  is_fence lang ws -> lookup LANG_TITLES lang <> [] ->
  lit "```" ++ lang ++ lit " " ++ lookup LANG_TITLES lang <> fence_line lang ws.
Proof.
  intros (_ & _ & Hw) Ht E. unfold fence_line in E.
  apply app_inv_head in E. apply app_inv_head in E.
  rewrite <- E, forallb_app in Hw. apply andb_true_iff in Hw as [_ Hw].
  rewrite title_not_spaces in Hw by exact Ht. discriminate.
Qed.

Lemma changed_inv (st : scope) (line : str) :
  snd (codetabs_line st line) <> line ->
  in_codegroup st = true /\ in_code_block st = false /\
  exists lang ws,
    line = fence_line lang ws /\ is_fence lang ws /\
    lookup LANG_TITLES lang <> [].
Proof.
  unfold codetabs_line.
  destruct (contains (lit "<CodeGroup>") line); [simpl; congruence|].
  destruct (contains (lit "</CodeGroup>") line); [simpl; congruence|].
  destruct (in_codegroup st); [|simpl; congruence].
  destruct (in_code_block st); [simpl; congruence|]. cbn [andb negb].
  destruct (re_match FENCE_OPEN line) as [groups|] eqn:E; [|simpl; congruence].
  apply fence_inv in E as (lang & ws & -> & Hf & ->). cbn [nth snd].
  intros H. split; [reflexivity|]. split; [reflexivity|].
  exists lang, ws. split; [reflexivity|]. split; [exact Hf|].
  intros Ht. rewrite Ht in H. congruence.
Qed.

(** Outside a tab group the loop copies the lines. *)
Lemma loop_outside (lines : list str) :
  (forall l, In l lines -> contains (lit "<CodeGroup>") l = false) ->
  forall st, in_codegroup st = false -> codetabs_loop st lines = lines.
Proof.
  induction lines as [|l lines IH]; intros Hno st Hg; [reflexivity|].
  cbn [codetabs_loop]. unfold codetabs_line.
  rewrite (Hno l (or_introl eq_refl)).
  destruct (contains (lit "</CodeGroup>") l).
  - f_equal. apply IH; [intros; apply Hno; right; assumption|reflexivity].
  - rewrite Hg. cbn [andb]. f_equal.
    apply IH; [intros; apply Hno; right; assumption|reflexivity].
Qed.

Lemma replace_no_new (x old new t : str) :
  x <> [] -> new <> [] ->
  apartb old x = true -> old <> x -> apartb new x = true -> new <> x ->
  count x (replace old new t) = count x t.
Proof.
  intros Hx Hn Ha Hne Hb Hnb. unfold replace, re_sub.
  apply (scan_count _ (lit_matcher old) _ (fun w => w = old) x
           (lit_matcher_matches old) Hx) with (p := []).
  - intros w ->. split; [apply apartb_sound, Ha|exact Hne].
  - intros st w _. simpl. split; [apply apartb_sound, Hb|]. split; assumption.
Qed.

Lemma no_group_after_rename (d : str) :
  contains (lit "<CodeTabs>") d = false ->
  contains (lit "<CodeGroup>") d = false ->
  replace (lit "</CodeTabs>") (lit "</CodeGroup>")
          (replace (lit "<CodeTabs>") (lit "<CodeGroup>") d)
  = replace (lit "</CodeTabs>") (lit "</CodeGroup>") d /\
  ~ occurs (lit "<CodeGroup>") (replace (lit "</CodeTabs>") (lit "</CodeGroup>") d).
Proof.
  intros H1 H2. split.
  - rewrite (replace_none (lit "<CodeTabs>")); [reflexivity|].
    intros O. apply contains_occurs in O. congruence.
  - apply count_zero_not_occurs. rewrite replace_no_new;
      try discriminate; try (vm_compute; reflexivity).
    apply count_zero_not_occurs. intros O. apply contains_occurs in O. congruence.
Qed.

(** ** C4 *)


(** * Processing files *)

Lemma process_file_eq (filepath original : str) (dry_run : bool) :
  let content := pipeline (is_release_file filepath) original in
  let leftover := re_findall SENTINEL_RE content in
  let changed := negb (str_eqb content original) in
  process_file filepath original dry_run =
  (match leftover with [] => [] | _ => [leak_report filepath leftover] end,
   if changed && negb dry_run then Some content else None,
   Stats filepath (is_release_file filepath) changed
         (List.length (snd (protect original)))).
Proof.
  unfold process_file, pipeline. destruct (protect original) as [c rs].
  reflexivity.
Qed.

Lemma read_after_write (fs : files) (p q c : str) :
  read_file fs p <> None -> read_file (write_file fs q c) p <> None.
Proof.
  induction fs as [|[p0 c0] fs IH]; simpl; [congruence|].
  destruct (str_eqb p0 q) eqn:Eq; simpl.
  - apply str_eqb_eq in Eq; subst q.
    destruct (str_eqb p0 p); [discriminate|auto].
  - destruct (str_eqb p0 p); [discriminate|auto].
Qed.

(** Every file of the list that exists is processed, whatever happened to
    the files before it. *)
Lemma run_files_reaches (paths : list str) (dry_run : bool) :
  forall fs p,
    In p paths -> read_file fs p <> None ->
    In (processing_line p) (snd (fst (run_files fs paths dry_run))).
Proof.
  induction paths as [|q paths IH]; intros fs p Hin Hp; [contradiction|].
  cbn [run_files].
  destruct (read_file fs q) as [original|] eqn:Eq.
  - destruct (process_file q original dry_run) as [[printed written] st].
    set (fs1 := match written with
                | Some content => write_file fs q content
                | None => fs end).
    assert (Hp1 : read_file fs1 p <> None).
    { unfold fs1. destruct written; [apply read_after_write|]; exact Hp. }
    specialize (IH fs1 p).
    destruct (run_files fs1 paths dry_run) as [[fs' out] [[cc rc] tp]].
    cbn [fst snd] in *. destruct Hin as [->|Hin].
    + left. reflexivity.
    + right. apply in_or_app. right. apply IH; assumption.
  - specialize (IH fs p).
    destruct (run_files fs paths dry_run) as [[fs' out] counts].
    cbn [fst snd] in *. destruct Hin as [->|Hin]; [congruence|].
    right. apply IH; assumption.
Qed.

(** ** C7 *)



(** * Release files *)

Lemma re_sub_count (x : str) (m : matcher) (L : str -> Prop) (new t : str) :
  matches_in m L -> x <> [] -> new <> [] ->
  (forall w, L w -> apart w x /\ w <> x) ->
  apart new x -> new <> x ->
  count x (re_sub m new t) = count x t.
Proof.
  intros Hm Hx Hn HL Hb Hnb. unfold re_sub.
  apply (scan_count _ m _ L x Hm Hx HL) with (p := []).
  intros st w _. simpl. auto.
Qed.

Lemma rename_links_keeps_acronym (t : str) :
  count ACRONYM (rename_links t) = count ACRONYM t.
Proof.
  unfold rename_links, replace, re_sub_re.
  rewrite (re_sub_count ACRONYM _ _ _ _ (lit_matcher_matches _));
    try discriminate; try (intros w ->; split; [|discriminate]);
    try (apply apartb_sound; vm_compute; reflexivity).
  rewrite (re_sub_count ACRONYM _ _ _ _ (lit_matcher_matches _));
    try discriminate; try (intros w ->; split; [|discriminate]);
    try (apply apartb_sound; vm_compute; reflexivity).
  rewrite (re_sub_count ACRONYM _ _ _ _ (re_matcher_matches _));
    try discriminate; try (intros w ->; split; [|discriminate]);
    try (apply apartb_sound; vm_compute; reflexivity).
  reflexivity.
Qed.

(** ** C3 *)

(** C3 (restricted-document bypass): for a file of the release directory
    the pass is protect, link rewriting, restore, with no brand renaming; link
    rewriting neither removes nor adds an occurrence of the bare acronym; and
    a release document with the bare acronym and an internal link has the link
    prefix rewritten and the acronym left as it is, where the same document
    outside the release directory has both rewritten. *)
Theorem release_files_links_only (filepath original : str) :
  is_release_file filepath = true ->
  pipeline (is_release_file filepath) original
    = restore (rename_links (fst (protect original))) (snd (protect original)) /\
  (forall c, written_by (process_file filepath original false) = Some c ->
     c = restore (rename_links (fst (protect original))) (snd (protect original))) /\
  (forall t, count ACRONYM (rename_links t) = count ACRONYM t) /\
  written_by (process_file (lit "docs/release/upgrade-guide.mdx")
                (lit "CDKTF 0.20: see [the guide](/terraform/cdktf/release/upgrade)")
                false)
    = Some (lit "CDKTF 0.20: see [the guide](/docs/release/upgrade)") /\
  written_by (process_file (lit "docs/concepts/upgrade-guide.mdx")
                (lit "CDKTF 0.20: see [the guide](/terraform/cdktf/release/upgrade)")
                false)
    = Some (lit "CDKTN 0.20: see [the guide](/docs/release/upgrade)").
Proof.
  intros Hr.
  assert (E : pipeline (is_release_file filepath) original
              = restore (rename_links (fst (protect original)))
                        (snd (protect original))).
  { rewrite Hr, pipeline_eq. reflexivity. }
  repeat match goal with |- _ /\ _ => split end.
  - exact E.
  - intros c H. rewrite process_file_eq in H. unfold written_by in H.
    cbn [fst snd] in H. destruct (_ && _); [|discriminate].
    injection H as <-. exact E.
  - apply rename_links_keeps_acronym.
  - vm_compute. reflexivity.
  - vm_compute. reflexivity.
Qed.

Lemma release_files_links_only_witness :
  is_release_file (lit "docs/release/upgrade-guide.mdx") = true /\
  pipeline (is_release_file (lit "docs/release/upgrade-guide.mdx"))
           (lit "Use CDKTF")
  = restore (rename_links (fst (protect (lit "Use CDKTF"))))
            (snd (protect (lit "Use CDKTF"))).
Proof.
  split; [reflexivity|].
  refine (proj1 (release_files_links_only _ (lit "Use CDKTF") _)).
  reflexivity.
Defined.

(** C2, witness: the configuration file name of a one-line document. *)
Lemma protection_invariant_witness :
  In (sentinel 0, lit "cdktf.json") (snd (protect (lit "see cdktf.json"))) /\
  occurs (lit "cdktf.json") (pipeline false (lit "see cdktf.json")).
Proof.
  assert (H : In (sentinel 0, lit "cdktf.json")
                 (snd (protect (lit "see cdktf.json"))))
    by (left; reflexivity).
  split; [exact H|].
  exact (protection_invariant false _ _ _ H).
Defined.
